(** * Connect2: dependency-driven schedule propagation

    A shallow embedding of the scheduling core of [app.py]
    ([adjust_start_date_based_on_dependency], [cascade_updates]) and of the
    task endpoints that call it ([add_task_api], [update_task_api],
    [delete_task_api]), with the properties the specification states
    about them. *)

From stdpp Require Import gmap list fin_maps strings.

Open Scope Z_scope.

(** ** Data model *)

(** A row of the [task] table.  Dates are day numbers (the ordinal of a
    [datetime.date]), so that [start_date + timedelta(days=n)] is integer
    addition where the sum is a calendar date; [ends_in_calendar] below
    says when it is.  The columns that the scheduling code never reads
    ([project_id], [name], [priority], [contractor_type], [comments] and
    the group and assignee associations) are left out. *)
Record Task := mkTask {
  id : Z;
  start_date : Z;
  duration_days : Z;
  dependency_id : option Z;
  is_completed : bool
}.

#[global] Instance Task_eq_dec : EqDecision Task.
Proof. solve_decision. Defined.

(** The session's view of the [task] table: [db.session.get(Task, k)] is
    the lookup [db !! k].  Rows are live objects of the identity map, so an
    attribute write is an update of the row stored under its key. *)
Abbreviation Store := (gmap Z Task).

(** [start_date + timedelta(days=duration_days)]. *)
Definition end_date (t : Task) : Z := start_date t + duration_days t.

(** The attribute write [task.start_date = d]. *)
Definition with_start (t : Task) (d : Z) : Task :=
  {| id := id t; start_date := d; duration_days := duration_days t;
     dependency_id := dependency_id t; is_completed := is_completed t |}.

(** Rows are stored under their primary key, and SQLite hands out primary
    keys from 1 upwards. *)
Definition valid (db : Store) : Prop :=
  map_Forall (λ k t, id t = k ∧ 0 < k) db.

#[global] Instance valid_dec db : Decision (valid db).
Proof. unfold valid. apply _. Defined.

(** ** The Adjustment Rule *)

(** [adjust_start_date_based_on_dependency(task)]: returns the task as the
    call leaves it together with the returned flag.  The test
    [if task.dependency_id:] is false for [None] and for [0].  This is
    what the call returns when it returns: where the end of the parent is
    not a calendar date the addition raises [OverflowError] instead, so a
    statement that the call yields a result assumes [ends_in_calendar] of
    the parent. *)
Definition adjust_start_date_based_on_dependency
    (db : Store) (task : Task) : Task * bool :=
  match dependency_id task with
  | Some d =>
      if d =? 0 then (task, false)
      else
        match db !! d with
        | Some parent =>
            let parent_end_date := start_date parent + duration_days parent in
            if start_date task <? parent_end_date
            then (with_start task parent_end_date, true)
            else (task, false)
        | None => (task, false)
        end
  | None => (task, false)
  end.

(** [start_date + timedelta(days=duration_days)] is defined: the duration
    is one that [timedelta] accepts and the sum lies between [date.min]
    (day 1) and [date.max] (31 December 9999, day 3652059). *)
Definition ends_in_calendar (t : Task) : Prop :=
  -999999999 ≤ duration_days t ≤ 999999999 ∧
  1 ≤ start_date t + duration_days t ≤ 3652059.

#[global] Instance ends_in_calendar_dec t : Decision (ends_in_calendar t).
Proof. unfold ends_in_calendar. apply _. Defined.

(** ** The Cascade Walker *)

(** One entry per call of the Adjustment Rule made by a cascade: the id of
    the follower examined and the flag the rule returned. *)
Abbreviation Log := (list (Z * bool)).

(** Sequential loop whose body may fail to return. *)
Fixpoint for_each {S : Type} (body : S → Z → option S) (l : list Z) (s : S)
    : option S :=
  match l with
  | [] => Some s
  | x :: l' =>
      match body s x with
      | Some s' => for_each body l' s'
      | None => None
      end
  end.

Section Cascade.

(** The order in which [Task.query.filter_by(...).all()] returns the
    matching rows is the database's choice. *)
Variable order : list Task → list Task.

(** [Task.query.filter_by(dependency_id=k).all()], as the ids of the
    rows returned. *)
Definition followers (db : Store) (k : Z) : list Z :=
  id <$> order (filter (λ t, dependency_id t = Some k)
                       ((map_to_list db).*2)).

(** The body of [for follower in followers:].  [follower] is the live
    row, read when its turn comes; [recur] is the recursive call.  The
    rows that the query returned are stored, so the first branch is not
    taken during a cascade. *)
Definition visit (recur : Store → Z → option (Store * Log))
    (st : Store * Log) (fid : Z) : option (Store * Log) :=
  let '(db, log) := st in
  match db !! fid with
  | None => Some st
  | Some follower =>
      let '(follower', moved) :=
        adjust_start_date_based_on_dependency db follower in
      if moved then
        match recur (<[fid := follower']> db) (id follower') with
        | Some (db', log') => Some (db', log ++ (fid, true) :: log')
        | None => None
        end
      else Some (db, log ++ [(fid, false)])
  end.

(** [cascade_updates(task_id)].  [depth] bounds the depth of the
    recursion: [None] means that the recursion is still open at that
    depth (the interpreter's [RecursionError]).  The interpreter allows
    a fixed number of frames, so what a cascade has done is stated for a
    cascade that returns. *)
Fixpoint cascade_updates (depth : nat) (db : Store) (task_id : Z)
    : option (Store * Log) :=
  match depth with
  | O => None
  | S depth' =>
      match db !! task_id with
      | None => Some (db, [])
      | Some task =>
          for_each (visit (cascade_updates depth'))
                   (followers db (id task)) (db, [])
      end
  end.

End Cascade.

(** ** The task endpoints *)

(** The fields of the JSON request body that reach the scheduling columns,
    already parsed.  [form_dependency_id] is
    [int(d['dependency_id']) if d.get('dependency_id') else None]. *)
Record TaskForm := mkForm {
  form_task_id : Z;
  form_start_date : Z;
  form_duration_days : Z;
  form_dependency_id : option Z
}.

(** How a request handler ends: with a JSON reply carrying [success], or
    with an exception because the recursion of the cascade did not close. *)
Inductive Outcome :=
| Replied (success : bool)
| Crashed.

(** The endpoints below take the committed table at the start of the
    request and return the committed table at its end: what the last
    [db.session.commit()] that was reached wrote. *)

(** The request carries values that the table can hold: a start date
    that [strptime] can produce, and integers that fit an SQLite
    [INTEGER] column. *)
Definition storable (d : TaskForm) : Prop :=
  1 ≤ form_start_date d ≤ 3652059 ∧
  - 2 ^ 63 ≤ form_duration_days d < 2 ^ 63 ∧
  match form_dependency_id d with
  | Some x => - 2 ^ 63 ≤ x < 2 ^ 63
  | None => True
  end.

#[global] Instance storable_dec d : Decision (storable d).
Proof.
  unfold storable. destruct (form_dependency_id d); apply _.
Defined.

(** The row [Task(...)] that [add_task_api] builds from the request. *)
Definition created (new_id : Z) (d : TaskForm) : Task :=
  {| id := new_id; start_date := form_start_date d;
     duration_days := form_duration_days d;
     dependency_id := form_dependency_id d;
     is_completed := false |}.

(** The row [t] after the attribute writes of [update_task_api]. *)
Definition edited (t : Task) (d : TaskForm) : Task :=
  {| id := id t; start_date := form_start_date d;
     duration_days := form_duration_days d;
     dependency_id := form_dependency_id d;
     is_completed := is_completed t |}.

(** [add_task_api].  [new_id] is the primary key the database gives the
    inserted row.  The pending row is flushed before the rule looks up its
    predecessor, so the rule sees the table with the new row in it. *)
Definition add_task_api (db : Store) (new_id : Z) (d : TaskForm)
    : Store * Outcome :=
  let t := created new_id d in
  let session := <[new_id := t]> db in
  let '(t', _) := adjust_start_date_based_on_dependency session t in
  (<[new_id := t']> session, Replied true).

Section Endpoints.

Variable order : list Task → list Task.

(** [update_task_api]. *)
Definition update_task_api (depth : nat) (db : Store) (d : TaskForm)
    : Store * Outcome :=
  match db !! form_task_id d with
  | Some t =>
      let t1 := edited t d in
      let session := <[form_task_id d := t1]> db in
      let '(t2, _) := adjust_start_date_based_on_dependency session t1 in
      let committed := <[form_task_id d := t2]> session in
      match cascade_updates order depth committed (id t2) with
      | Some (db', _) => (db', Replied true)
      | None => (committed, Crashed)
      end
  | None => (db, Replied false)
  end.


End Endpoints.

(** [delete_task_api]. *)
Definition delete_task_api (db : Store) (task_id : Z) : Store * Outcome :=
  match db !! task_id with
  | Some _ => (delete task_id db, Replied true)
  | None => (db, Replied false)
  end.

(** [complete_task_api]: [t.is_completed = not t.is_completed]. *)
Definition with_completed (t : Task) (b : bool) : Task :=
  {| id := id t; start_date := start_date t;
     duration_days := duration_days t; dependency_id := dependency_id t;
     is_completed := b |}.

Definition complete_task_api (db : Store) (task_id : Z) : Store * Outcome :=
  match db !! task_id with
  | Some t =>
      (<[task_id := with_completed t (negb (is_completed t))]> db,
       Replied true)
  | None => (db, Replied false)
  end.

(** ** Users *)

(** A row of the [user] table, without the name and password columns. *)
Record User := mkUser {
  user_id : Z;
  email : string;
  username : string;
  role : string
}.

(** Rows of the [user] table are stored under their primary key. *)
Definition valid_users (users : gmap Z User) : Prop :=
  map_Forall (λ k u, user_id u = k) users.

#[global] Instance valid_users_dec users : Decision (valid_users users).
Proof. unfold valid_users. apply _. Defined.

(** [delete_user]: [if u and u.id != 1:] guards the deletion. *)
Definition delete_user (users : gmap Z User) (uid : Z)
    : gmap Z User * Outcome :=
  match users !! uid with
  | Some u =>
      if user_id u =? 1 then (users, Replied false)
      else (delete uid users, Replied true)
  | None => (users, Replied false)
  end.

(** ** The dependency graph *)

(** [follows db k x]: the row [x] names [k] as its predecessor. *)
Definition follows (db : Store) (k x : Z) : Prop :=
  ∃ t, db !! x = Some t ∧ dependency_id t = Some k.

(** [x] is reachable from [k] along one or more follower edges. *)
Definition descendant (db : Store) : relation Z := tc (follows db).

(** The number of stored tasks on the predecessor chain that starts at
    [k], when the chain ends within [n] links. *)
Fixpoint rank (n : nat) (db : Store) (k : Z) : option nat :=
  match n with
  | O => None
  | S n' =>
      match db !! k with
      | None => Some O
      | Some t =>
          match dependency_id t with
          | None => Some 1%nat
          | Some d => S <$> rank n' db d
          end
      end
  end.

(** Forest topology: every task has at most one predecessor (by the data
    model) and no predecessor chain runs into a cycle: each ends before it
    could have passed through every stored task twice. *)
Definition forest (db : Store) : Prop :=
  map_Forall (λ k _, is_Some (rank (S (size db)) db k)) db.

#[global] Instance forest_dec db : Decision (forest db).
Proof. unfold forest. apply _. Defined.

(** The dependency invariant for one task: it starts no earlier than its
    predecessor ends, when that predecessor is present. *)
Definition starts_after_predecessor (db : Store) (t : Task) : Prop :=
  match dependency_id t with
  | Some d =>
      match db !! d with
      | Some p => end_date p ≤ start_date t
      | None => True
      end
  | None => True
  end.

#[global] Instance starts_after_predecessor_dec db t :
  Decision (starts_after_predecessor db t).
Proof.
  unfold starts_after_predecessor.
  destruct (dependency_id t) as [d|]; [|apply _].
  destruct (db !! d); apply _.
Defined.

(** The state of a table in which one task has just been edited: the
    invariant holds for every task, except possibly for the direct
    followers of [k]. *)
Definition settled_except_after (db : Store) (k : Z) : Prop :=
  map_Forall (λ _ t, dependency_id t = Some k ∨ starts_after_predecessor db t)
             db.

#[global] Instance settled_except_after_dec db k :
  Decision (settled_except_after db k).
Proof. unfold settled_except_after. apply _. Defined.

(** The dependency invariant for the whole table. *)
Definition all_settled (db : Store) : Prop :=
  map_Forall (λ _ t, starts_after_predecessor db t) db.

#[global] Instance all_settled_dec db : Decision (all_settled db).
Proof. unfold all_settled. apply _. Defined.

(** Two tables hold the same tasks with the same predecessors and
    durations, the second with start dates that are no earlier. *)
Definition later (t t' : Task) : Prop :=
  t' = with_start t (start_date t') ∧ start_date t ≤ start_date t'.

Definition delayed (db db' : Store) : Prop :=
  ∀ k, option_Forall2 later (db !! k) (db' !! k).

(** ** What a cascade examines *)

(** [reaches db root x e]: in the table [db], a cascade from [root] comes
    to examine [x], and at that moment the predecessor of [x] ends on
    [e].  Direct followers are examined against the root; the followers
    of a task are examined only once that task has been moved. *)
Inductive reaches (db : Store) (root : Z) : Z → Z → Prop :=
| reaches_follower r x t :
    db !! root = Some r → db !! x = Some t → dependency_id t = Some root →
    reaches db root x (end_date r)
| reaches_below p tp e x t :
    reaches db root p e → db !! p = Some tp → start_date tp < e →
    db !! x = Some t → dependency_id t = Some p →
    reaches db root x (e + duration_days tp).

(** The row the Adjustment Rule leaves when the predecessor ends on [e]. *)
Definition pushed (t : Task) (e : Z) : Task :=
  if start_date t <? e then with_start t e else t.

(** [tight db k a]: there is a walk from [a] to [k] along follower edges
    on which every follower starts no later than its predecessor ends. *)
Inductive tight (db : Store) (k : Z) : Z → Prop :=
| tight_here : tight db k k
| tight_edge a ta y ty :
    db !! a = Some ta → db !! y = Some ty → dependency_id ty = Some a →
    start_date ty ≤ end_date ta → tight db k y → tight db k a.

(** ** Statements about whole cascades *)

Section Statements.

Variable order : list Task → list Task.

(** A cascade that returns has only delayed tasks, every task it has
    examined is reachable from the root, and every row it has changed
    was examined and moved. *)
Definition returns_well (n : nat) : Prop :=
  ∀ db k db' log,
    valid db → cascade_updates order n db k = Some (db', log) →
    delayed db db' ∧
    (∀ x b, (x, b) ∈ log → descendant db k x) ∧
    (∀ x, db' !! x ≠ db !! x → (x, true) ∈ log).

(** A cascade from [k] that returns has changed no task from which a
    tight walk leads to [k]; in particular not [k] itself. *)
Definition keeps_tight (n : nat) : Prop :=
  ∀ db k db' log,
    valid db → cascade_updates order n db k = Some (db', log) →
    ∀ a, tight db k a → db' !! a = db !! a.

(** A cascade from a task on a tense cycle does not return. *)
Definition stays_open (n : nat) : Prop :=
  ∀ db k tk y ty,
    valid db → db !! k = Some tk → db !! y = Some ty →
    dependency_id ty = Some k → start_date ty < end_date tk →
    tight db k y →
    cascade_updates order n db k = None.

(** The effect of a cascade that returns, told without the order in
    which followers are taken: a task the cascade comes to examine ends
    up [pushed] to the end of its predecessor, every other task is as it
    was, and the log holds only such examinations. *)
Definition as_examined (db : Store) (k : Z) (db' : Store) (log : Log)
    : Prop :=
  (∀ x t, db !! x = Some t →
     (∃ e, reaches db k x e ∧ db' !! x = Some (pushed t e)) ∨
     ((∀ e, ¬ reaches db k x e) ∧ db' !! x = Some t)) ∧
  (∀ x b, (x, b) ∈ log →
     ∃ t e, db !! x = Some t ∧ reaches db k x e ∧
            b = (start_date t <? e)).

(** Every cascade of depth [n] that returns in a forest has that effect. *)
Definition closed (n : nat) : Prop :=
  ∀ db k db' log,
    valid db → forest db →
    cascade_updates order n db k = Some (db', log) →
    as_examined db k db' log.

End Statements.

(** ** Example tables *)

(** The order in which the rows come back in the examples: as the table
    lists them. *)
Definition as_stored (l : list Task) : list Task := l.

Definition task (i s d : Z) (dep : option Z) : Task :=
  {| id := i; start_date := s; duration_days := d; dependency_id := dep;
     is_completed := false |}.

(** P (1 Jan, 5 days) with followers F1 (3 Jan) and F2 (10 Jan); G follows
    F1 and H follows F2, both starting on 1 Jan. *)
Definition example_tree : Store :=
  list_to_map [ (1, task 1 1 5 None); (2, task 2 3 2 (Some 1));
                (3, task 3 10 5 (Some 1)); (4, task 4 1 1 (Some 2));
                (5, task 5 1 1 (Some 3)) ].

(** The chain P, F1, F2 after the duration of P has been edited from 5 to
    10 days: F1 now starts before P ends. *)
Definition example_chain : Store :=
  list_to_map [ (1, task 1 1 10 None); (2, task 2 6 2 (Some 1));
                (3, task 3 8 1 (Some 2)) ].

(** A depends on B and B depends on A. *)
Definition example_cycle : Store :=
  list_to_map [ (1, task 1 0 1 (Some 2)); (2, task 2 0 1 (Some 1)) ].

(** A and B depend on each other and both last zero days. *)
Definition example_idle_cycle : Store :=
  list_to_map [ (1, task 1 5 0 (Some 2)); (2, task 2 1 0 (Some 1)) ].




(** The chain P, F1, F2 with every task starting where its predecessor
    ends. *)
Definition example_settled : Store :=
  list_to_map [ (1, task 1 1 5 None); (2, task 2 6 2 (Some 1));
                (3, task 3 8 1 (Some 2)) ].

Definition example_users : gmap Z User :=
  list_to_map [ (1, mkUser 1 "admin@connect.local" "Admin" "admin");
                (2, mkUser 2 "ann@connect.local" "ann@connect.local" "user") ].

(** * Properties *)

(** ** The Adjustment Rule *)

Lemma with_start_same t : with_start t (start_date t) = t.
Proof. by destruct t. Qed.

Lemma later_refl t : later t t.
Proof. split; [by rewrite with_start_same | lia]. Qed.

Lemma later_trans t1 t2 t3 : later t1 t2 → later t2 t3 → later t1 t3.
Proof.
  intros [E1 L1] [E2 L2]. split; [|lia].
  rewrite E2, E1 at 1. by destruct t1.
Qed.

Lemma later_with_start t d : start_date t ≤ d → later t (with_start t d).
Proof. by split. Qed.

(** The rule either leaves the task alone, or finds a stored predecessor
    that ends after the task starts and moves the task to that end. *)
Lemma adjust_cases db t t' b :
  adjust_start_date_based_on_dependency db t = (t', b) →
  (b = false ∧ t' = t) ∨
  (b = true ∧ ∃ d p, dependency_id t = Some d ∧ d ≠ 0 ∧ db !! d = Some p ∧
                     start_date t < end_date p ∧
                     t' = with_start t (end_date p)).
Proof.
  unfold adjust_start_date_based_on_dependency, end_date.
  destruct (dependency_id t) as [d|]; [|intros [= <- <-]; by left].
  destruct (Z.eqb_spec d 0) as [|Hd]; [intros [= <- <-]; by left|].
  destruct (db !! d) as [p|] eqn:Hp; [|intros [= <- <-]; by left].
  destruct (Z.ltb_spec (start_date t) (start_date p + duration_days p));
    intros [= <- <-]; [right|left]; eauto 10.
Qed.

Lemma adjust_against db t d p :
  dependency_id t = Some d → d ≠ 0 → db !! d = Some p →
  adjust_start_date_based_on_dependency db t =
    if start_date t <? end_date p then (with_start t (end_date p), true)
    else (t, false).
Proof.
  intros Hd Hz Hp. unfold adjust_start_date_based_on_dependency, end_date.
  rewrite Hd, Hp. by destruct (Z.eqb_spec d 0).
Qed.

Lemma adjust_later db t t' b :
  adjust_start_date_based_on_dependency db t = (t', b) → later t t'.
Proof.
  intros [[_ ->]|[_ (d & p & _ & _ & _ & Hlt & ->)]]%adjust_cases.
  - apply later_refl.
  - apply later_with_start. lia.
Qed.

(** ** Tables that differ by start dates only *)

Lemma delayed_refl db : delayed db db.
Proof.
  intros k. destruct (db !! k); constructor. apply later_refl.
Qed.

Lemma delayed_trans db1 db2 db3 :
  delayed db1 db2 → delayed db2 db3 → delayed db1 db3.
Proof.
  intros H12 H23 k. specialize (H12 k). specialize (H23 k).
  destruct H12; inversion H23; subst; constructor.
  eauto using later_trans.
Qed.

Lemma delayed_insert db k t t' :
  db !! k = Some t → later t t' → delayed db (<[k := t']> db).
Proof.
  intros Hk Hl j. destruct (decide (k = j)) as [<-|].
  - rewrite lookup_insert_eq, Hk. by constructor.
  - rewrite lookup_insert_ne by done. apply delayed_refl.
Qed.

Lemma delayed_lookup db db' k t :
  delayed db db' → db !! k = Some t →
  ∃ t', db' !! k = Some t' ∧ later t t'.
Proof.
  intros H Hk. specialize (H k). rewrite Hk in H. inversion H; eauto.
Qed.

Lemma delayed_lookup_r db db' k t' :
  delayed db db' → db' !! k = Some t' →
  ∃ t, db !! k = Some t ∧ later t t'.
Proof.
  intros H Hk. specialize (H k). rewrite Hk in H. inversion H; eauto.
Qed.

Lemma delayed_lookup_None db db' k :
  delayed db db' → db !! k = None ↔ db' !! k = None.
Proof.
  intros H. specialize (H k). split; intros Hk; rewrite Hk in H; by inversion H.
Qed.

Lemma later_fields t t' :
  later t t' →
  id t' = id t ∧ duration_days t' = duration_days t ∧
  dependency_id t' = dependency_id t.
Proof. intros [-> _]. done. Qed.

Lemma delayed_valid db db' : delayed db db' → valid db → valid db'.
Proof.
  intros Hd Hv k t' Hk.
  destruct (delayed_lookup_r _ _ _ _ Hd Hk) as (t & Ht & Hl).
  destruct (Hv _ _ Ht). apply later_fields in Hl as (-> & _). done.
Qed.

Lemma delayed_dom db db' : delayed db db' → dom db' = dom db.
Proof.
  intros H. apply set_eq. intros k. rewrite !elem_of_dom.
  rewrite <-!not_eq_None_Some. by rewrite (delayed_lookup_None _ _ k H).
Qed.

Lemma delayed_size db db' : delayed db db' → size db' = size db.
Proof.
  intros H. by rewrite <-(size_dom db'), <-(size_dom db), (delayed_dom _ _ H).
Qed.

(** ** The dependency graph *)

Lemma delayed_follows db db' k x :
  delayed db db' → follows db k x ↔ follows db' k x.
Proof.
  intros H. split; intros (t & Ht & Hd).
  - destruct (delayed_lookup _ _ _ _ H Ht) as (t' & Ht' & Hl).
    apply later_fields in Hl as (_ & _ & E). exists t'. by rewrite E.
  - destruct (delayed_lookup_r _ _ _ _ H Ht) as (t' & Ht' & Hl).
    apply later_fields in Hl as (_ & _ & E). exists t'. by rewrite <-E.
Qed.

Lemma delayed_descendant db db' k x :
  delayed db db' → descendant db k x ↔ descendant db' k x.
Proof.
  intros H. unfold descendant.
  split; apply tc_congruence with (f := λ z, z); intros ??;
    by rewrite (delayed_follows _ _ _ _ H).
Qed.

Lemma descendant_child db k x : follows db k x → descendant db k x.
Proof. apply tc_once. Qed.

Lemma descendant_below db k p x :
  descendant db k p → follows db p x → descendant db k x.
Proof. apply tc_r. Qed.

Lemma descendant_under db k p x :
  follows db k p → descendant db p x → descendant db k x.
Proof. apply tc_l. Qed.

(** A task has one predecessor. *)
Lemma follows_unique db k k' x : follows db k x → follows db k' x → k = k'.
Proof. intros (t & Ht & Hd) (t' & Ht' & Hd'). congruence. Qed.

(** The last edge of a path to [x] comes from the predecessor of [x]. *)
Lemma descendant_inv db k p x :
  descendant db k x → follows db p x → p = k ∨ descendant db k p.
Proof.
  intros Hd. revert p. pattern x.
  eapply tc_ind_r; [| |exact Hd]; simpl.
  - intros z Hz p Hp. left. eauto using follows_unique.
  - intros y z Hy Hz _ p Hp. right.
    by rewrite (follows_unique _ _ _ _ Hp Hz).
Qed.

(** ** Forests *)

Lemma rank_mono n m db k r :
  rank n db k = Some r → (n ≤ m)%nat → rank m db k = Some r.
Proof.
  revert m k r. induction n as [|n IH]; intros m k r; [done|].
  destruct m as [|m]; [lia|]. simpl. intros Hr Hle.
  destruct (db !! k) as [t|]; [|done].
  destruct (dependency_id t) as [d|]; [|done].
  destruct (rank n db d) as [r0|] eqn:E; [|done].
  by rewrite (IH m d r0 E) by lia.
Qed.

Lemma rank_bound n db k r : rank n db k = Some r → (r ≤ n)%nat.
Proof.
  revert k r. induction n as [|n IH]; intros k r; [done|]. simpl.
  destruct (db !! k) as [t|]; [|intros [= <-]; lia].
  destruct (dependency_id t) as [d|]; [|intros [= <-]; lia].
  destruct (rank n db d) as [r0|] eqn:E; [|done].
  intros [= <-]. apply IH in E. lia.
Qed.

(** A follower ranks one above its predecessor. *)
Lemma rank_follows n db k x r :
  follows db k x → rank n db x = Some r →
  ∃ r0, r = S r0 ∧ rank n db k = Some r0.
Proof.
  intros (t & Ht & Hd). destruct n as [|n]; [done|].
  simpl. rewrite Ht, Hd.
  destruct (rank n db k) as [r0|] eqn:E; [|done].
  intros [= <-]. exists r0. split; [done|].
  change (rank (S n) db k = Some r0). eapply rank_mono; [done|lia].
Qed.

Lemma rank_descendant n db k x r :
  descendant db k x → rank n db x = Some r →
  ∃ r0, (r0 < r)%nat ∧ rank n db k = Some r0.
Proof.
  intros Hd. revert r. induction Hd as [k x H|k p x H _ IH]; intros r Hr.
  - destruct (rank_follows _ _ _ _ _ H Hr) as (r0 & -> & ?).
    exists r0. split; [lia|done].
  - destruct (IH _ Hr) as (r1 & ? & Hr1).
    destruct (rank_follows _ _ _ _ _ H Hr1) as (r0 & -> & ?).
    exists r0. split; [lia|done].
Qed.

Lemma descendant_stored db k x : descendant db k x → is_Some (db !! x).
Proof.
  intros Hd. pattern x. eapply tc_ind_r; [| |exact Hd]; simpl.
  - intros z (t & Ht & _). eauto.
  - intros y z _ (t & Ht & _) _. eauto.
Qed.

(** In a forest no task is reachable from itself. *)
Lemma forest_acyclic db k : forest db → ¬ descendant db k k.
Proof.
  intros Hf Hd. destruct (descendant_stored _ _ _ Hd) as [t Ht].
  destruct (Hf _ _ Ht) as [r Hr].
  destruct (rank_descendant _ _ _ _ _ Hd Hr) as (r0 & ? & Hr0).
  rewrite Hr in Hr0. injection Hr0. lia.
Qed.

Lemma delayed_rank n db db' k : delayed db db' → rank n db' k = rank n db k.
Proof.
  intros H. revert k. induction n as [|n IH]; intros k; [done|]. simpl.
  specialize (H k). destruct H as [t t' Hl|]; [|done].
  apply later_fields in Hl as (_ & _ & ->).
  destruct (dependency_id t); [|done]. by rewrite IH.
Qed.

Lemma delayed_forest db db' : delayed db db' → forest db → forest db'.
Proof.
  intros H Hf k t' Hk. cbv beta.
  destruct (delayed_lookup_r _ _ _ _ H Hk) as (t & Ht & _).
  rewrite (delayed_size _ _ H), (delayed_rank _ _ _ _ H).
  exact (Hf _ _ Ht).
Qed.

(** In a forest the followers of a stored task rank one above it. *)
Lemma forest_rank_follower db k x r :
  forest db → follows db k x →
  rank (S (size db)) db k = Some r →
  rank (S (size db)) db x = Some (S r).
Proof.
  intros Hf Hx Hr. destruct Hx as (t & Ht & Hd).
  destruct (Hf _ _ Ht) as [rx Hrx].
  destruct (rank_follows _ _ k x _ (ex_intro _ t (conj Ht Hd)) Hrx)
    as (r0 & -> & Hr0).
  congruence.
Qed.

(** Subtrees below distinct followers of one task do not meet. *)
Lemma descendant_linear db a b x :
  descendant db a x → descendant db b x →
  a = b ∨ descendant db a b ∨ descendant db b a.
Proof.
  intros Ha. revert b. pattern x. eapply tc_ind_r; [| |exact Ha]; simpl.
  - intros z Hz b Hb.
    destruct (descendant_inv _ _ _ _ Hb Hz) as [->|?]; auto.
  - intros y z Hy Hz IH b Hb.
    destruct (descendant_inv _ _ _ _ Hb Hz) as [->|Hby]; [auto|].
    destruct (IH _ Hby) as [->|[?|?]]; auto.
Qed.

Lemma forest_not_below_follower db k f :
  forest db → follows db k f → ¬ descendant db f k.
Proof.
  intros Hf Hk Hd. apply (forest_acyclic db k Hf).
  by eapply descendant_under.
Qed.

Lemma forest_no_self_loop db k : forest db → ¬ follows db k k.
Proof.
  intros Hf Hk. apply (forest_acyclic db k Hf). by apply descendant_child.
Qed.

Lemma forest_subtrees_disjoint db k f f' x :
  forest db → follows db k f → follows db k f' →
  rtc (follows db) f x → rtc (follows db) f' x → f = f'.
Proof.
  intros Hf Hkf Hkf'.
  assert (∀ a b, follows db k a → follows db k b → ¬ descendant db a b)
    as Hno.
  { intros a b Ha Hb Hd.
    destruct (descendant_inv _ _ _ _ Hd Hb) as [->|Hd'].
    - exact (forest_no_self_loop _ _ Hf Ha).
    - exact (forest_not_below_follower _ _ _ Hf Ha Hd'). }
  intros [->|Hx]%rtc_tc [E|Hx']%rtc_tc.
  - done.
  - exfalso. exact (Hno _ _ Hkf' Hkf Hx').
  - subst x. exfalso. exact (Hno _ _ Hkf Hkf' Hx).
  - destruct (descendant_linear _ _ _ _ Hx Hx') as [?|[Hd|Hd]]; [done| |].
    + exfalso. exact (Hno _ _ Hkf Hkf' Hd).
    + exfalso. exact (Hno _ _ Hkf' Hkf Hd).
Qed.

(** ** The loop *)

Lemma for_each_app {S : Type} (body : S → Z → option S) l1 l2 s :
  for_each body (l1 ++ l2) s =
    match for_each body l1 s with
    | Some s' => for_each body l2 s'
    | None => None
    end.
Proof.
  revert s. induction l1 as [|x l1 IH]; intros s; simpl; [done|].
  destruct (body s x); [apply IH|done].
Qed.

Lemma for_each_cons {S : Type} (body : S → Z → option S) x l s :
  for_each body (x :: l) s =
    match body s x with
    | Some s' => for_each body l s'
    | None => None
    end.
Proof. done. Qed.

Lemma valid_lookup db k t : valid db → db !! k = Some t → id t = k ∧ 0 < k.
Proof. intros Hv Hk. exact (Hv _ _ Hk). Qed.

(** ** Tight walks *)

Lemma tight_transfer db db' k a :
  tight db k a → (∀ y, tight db k y → db' !! y = db !! y) → tight db' k a.
Proof.
  intros Ht Heq. induction Ht as [|a ta y ty Ha Hy Hd Hle Ht IH].
  - constructor.
  - apply tight_edge with ta y ty; [| |done|done|done].
    + rewrite Heq; [done|]. by eapply tight_edge.
    + by rewrite Heq.
Qed.

(** Extending a tight walk by one tight edge at its end. *)
Lemma tight_snoc db k tk s ts a :
  db !! k = Some tk → db !! s = Some ts → dependency_id ts = Some k →
  start_date ts ≤ end_date tk → tight db k a → tight db s a.
Proof.
  intros Hk Hs Hd Hle Ht. induction Ht as [|a ta y ty Ha Hy Hdy Hley Ht IH].
  - eapply tight_edge; [exact Hk|exact Hs|done|done|constructor].
  - by eapply tight_edge.
Qed.

(** Moving a task to the end of its predecessor keeps tight walks tight. *)
Lemma tight_after_move db k s ts p tp a :
  db !! s = Some ts → dependency_id ts = Some p → db !! p = Some tp →
  start_date ts < end_date tp →
  tight db k a → tight (<[s := with_start ts (end_date tp)]> db) k a.
Proof.
  intros Hs Hd Hp Hlt Ht. induction Ht as [|a ta y ty Ha Hy Hdy Hley Ht IH].
  { constructor. }
  destruct (decide (y = s)) as [->|Hys], (decide (a = s)) as [->|Has].
  - assert (ty = ts) as -> by congruence. assert (ta = ts) as -> by congruence.
    assert (p = s) as -> by congruence. assert (tp = ts) as -> by congruence.
    eapply tight_edge; [apply lookup_insert_eq|apply lookup_insert_eq|done| |done].
    unfold end_date in *. simpl. lia.
  - assert (ty = ts) as -> by congruence.
    assert (p = a) as -> by congruence. assert (tp = ta) as -> by congruence.
    eapply tight_edge;
      [by rewrite lookup_insert_ne|apply lookup_insert_eq|done| |done].
    simpl. lia.
  - assert (ta = ts) as -> by congruence.
    eapply tight_edge;
      [apply lookup_insert_eq|by rewrite lookup_insert_ne|done| |done].
    unfold end_date in *. simpl. lia.
  - eapply tight_edge;
      [by rewrite lookup_insert_ne|by rewrite lookup_insert_ne|done|done|done].
Qed.

(** After a move the edge into the moved task is tight. *)
Lemma cycle_rotates_edge (db : Store) k tk y ty :
  db !! k = Some tk → db !! y = Some ty → dependency_id ty = Some k →
  start_date ty < end_date tk →
  ∃ tk', <[y := with_start ty (end_date tk)]> db !! k = Some tk' ∧
         end_date tk ≤ end_date tk'.
Proof.
  intros Hk Hy Hd Hlt. destruct (decide (k = y)) as [->|Hne].
  - eexists. rewrite lookup_insert_eq. split; [done|].
    assert (tk = ty) as -> by congruence.
    unfold end_date in *. simpl. lia.
  - exists tk. rewrite lookup_insert_ne by done. split; [done|]. lia.
Qed.

(** A tense cycle through [k] (a tight walk back to [k] from a follower
    [y] that starts before [k] ends) is, once [y] has been moved, a tense
    cycle through [y]. *)
Lemma cycle_rotates db k tk y ty :
  db !! k = Some tk → db !! y = Some ty → dependency_id ty = Some k →
  start_date ty < end_date tk → tight db k y →
  ∃ tk',
    <[y := with_start ty (end_date tk)]> db !! k = Some tk' ∧
    ∃ y2 ty2,
      <[y := with_start ty (end_date tk)]> db !! y2 = Some ty2 ∧
      dependency_id ty2 = Some y ∧
      start_date ty2 < end_date (with_start ty (end_date tk)) ∧
      tight (<[y := with_start ty (end_date tk)]> db) y y2.
Proof.
  intros Hk Hy Hd Hlt Ht.
  destruct (cycle_rotates_edge _ _ _ _ _ Hk Hy Hd Hlt) as (tk' & Hk' & Hle').
  assert (∀ a, tight db k a →
               tight (<[y := with_start ty (end_date tk)]> db) y a) as Hturn.
  { intros a Ha.
    eapply (tight_snoc _ k tk' y (with_start ty (end_date tk)));
      [done|apply lookup_insert_eq|done|done|].
    by eapply tight_after_move. }
  exists tk'. split; [done|].
  assert (follows db y y →
          ∃ y2 ty2,
            <[y := with_start ty (end_date tk)]> db !! y2 = Some ty2 ∧
            dependency_id ty2 = Some y ∧
            start_date ty2 < end_date (with_start ty (end_date tk)) ∧
            tight (<[y := with_start ty (end_date tk)]> db) y y2) as Hself.
  { intros (ty' & Hy' & Hd').
    assert (ty' = ty) as -> by congruence.
    assert (k = y) as E by congruence. rewrite E in Hk.
    assert (tk = ty) as -> by congruence.
    exists y, (with_start ty (end_date ty)). rewrite lookup_insert_eq.
    split; [done|]. split; [done|]. split; [|constructor].
    unfold end_date in *. simpl. lia. }
  inversion Ht as [E|a ta y2 ty2 Ha Hy2 Hd2 Hle2 Ht2 E].
  - apply Hself. exists ty. split; [done|]. by rewrite Hd, E.
  - destruct (decide (y2 = y)) as [E2|Hne].
    + apply Hself. exists ty2. by rewrite <-E2 at 1.
    + assert (ta = ty) as -> by congruence.
      exists y2, ty2. rewrite lookup_insert_ne by done.
      split; [done|]. split; [done|]. split; [|by apply Hturn].
      unfold end_date in *. simpl. lia.
Qed.

Section Walker.

Variable order : list Task → list Task.
Hypothesis order_perm : ∀ l, order l ≡ₚ l.

Lemma elem_of_followers db k f :
  valid db → f ∈ followers order db k ↔ follows db k f.
Proof.
  intros Hv. unfold followers, follows.
  rewrite list_elem_of_fmap. setoid_rewrite (order_perm _).
  setoid_rewrite list_elem_of_filter.
  setoid_rewrite list_elem_of_fmap.
  split.
  - intros (t & -> & Hd & [j t'] & -> & Hin).
    apply elem_of_map_to_list in Hin. simpl in *.
    destruct (valid_lookup _ _ _ Hv Hin) as [-> _]. eauto.
  - intros (t & Ht & Hd). exists t.
    destruct (valid_lookup _ _ _ Hv Ht) as [E _].
    split; [done|]. split; [done|]. exists (f, t). split; [done|].
    by apply elem_of_map_to_list.
Qed.

Lemma NoDup_followers db k : valid db → NoDup (followers order db k).
Proof.
  intros Hv. unfold followers. rewrite (order_perm _).
  eapply sublist_NoDup; [|apply fmap_sublist, sublist_filter].
  assert (id <$> (map_to_list db).*2 = (map_to_list db).*1) as ->.
  { rewrite <-list_fmap_compose. apply list_fmap_ext.
    intros i [j t] Hin%list_elem_of_lookup_2.
    apply elem_of_map_to_list in Hin. simpl.
    by destruct (valid_lookup _ _ _ Hv Hin). }
  apply NoDup_fst_map_to_list.
Qed.

(** The three ways in which the body of the loop returns. *)
Lemma visit_Some recur db log f st' :
  visit recur (db, log) f = Some st' →
  (db !! f = None ∧ st' = (db, log)) ∨
  (∃ tf, db !! f = Some tf ∧
         adjust_start_date_based_on_dependency db tf = (tf, false) ∧
         st' = (db, log ++ [(f, false)])) ∨
  (∃ tf tf' db' log',
      db !! f = Some tf ∧
      adjust_start_date_based_on_dependency db tf = (tf', true) ∧
      recur (<[f := tf']> db) (id tf') = Some (db', log') ∧
      st' = (db', log ++ (f, true) :: log')).
Proof.
  unfold visit. destruct (db !! f) as [tf|]; [|intros [= <-]; by left].
  destruct (adjust_start_date_based_on_dependency db tf) as [tf' b] eqn:E.
  destruct b.
  - destruct (recur _ _) as [[db' log']|] eqn:Er; [|done].
    intros [= <-]. right. right. by exists tf, tf', db', log'.
  - intros [= <-]. right. left. exists tf.
    destruct (adjust_cases _ _ _ _ E) as [[_ ->]|[? _]]; done.
Qed.

(** What the rule does to a follower of a stored task. *)
Lemma adjust_follower db k tk f tf :
  valid db → db !! k = Some tk → db !! f = Some tf →
  dependency_id tf = Some k →
  adjust_start_date_based_on_dependency db tf =
    if start_date tf <? end_date tk then (with_start tf (end_date tk), true)
    else (tf, false).
Proof.
  intros Hv Hk Hf Hd. apply adjust_against with (d := k); [done| |done].
  destruct (valid_lookup _ _ _ Hv Hk). lia.
Qed.

Lemma cascade_missing n db k :
  db !! k = None → cascade_updates order (S n) db k = Some (db, []).
Proof. intros Hk. simpl. by rewrite Hk. Qed.

Lemma cascade_stored n db k tk :
  valid db → db !! k = Some tk →
  cascade_updates order (S n) db k =
    for_each (visit (cascade_updates order n))
             (followers order db k) (db, []).
Proof.
  intros Hv Hk. simpl. rewrite Hk.
  by destruct (valid_lookup _ _ _ Hv Hk) as [-> _].
Qed.

(** ** What every cascade that returns has done *)

Lemma loop_returns_well n k L :
  returns_well order n →
  ∀ db log db' log',
    valid db → (∀ f, f ∈ L → follows db k f) →
    for_each (visit (cascade_updates order n)) L (db, log)
      = Some (db', log') →
    delayed db db' ∧
    ∃ log1, log' = log ++ log1 ∧
            (∀ x b, (x, b) ∈ log1 → descendant db k x) ∧
            (∀ x, db' !! x ≠ db !! x → (x, true) ∈ log1).
Proof.
  intros IHn. induction L as [|f L IHL]; intros db log db' log' Hv HL.
  { intros [= <- <-]. split; [apply delayed_refl|].
    exists []. rewrite app_nil_r. split; [done|].
    split; [by intros ?? ?%elem_of_nil|done]. }
  rewrite for_each_cons.
  destruct (visit _ (db, log) f) as [[db1 log1]|] eqn:Hvis; [|done].
  intros Hrest.
  assert (follows db k f) as Hkf by (apply HL; left).
  assert (delayed db db1 ∧
          ∃ l1, log1 = log ++ l1 ∧
                (∀ x b, (x, b) ∈ l1 → descendant db k x) ∧
                (∀ x, db1 !! x ≠ db !! x → (x, true) ∈ l1))
    as (Hd1 & l1 & -> & Hl1 & Hm1).
  { apply visit_Some in Hvis
      as [[_ [= -> ->]]|[(tf & Hf & _ & [= -> ->])
                        |(tf & tf' & db2 & log2 & Hf & Ha & Hr & [= -> ->])]].
    - split; [apply delayed_refl|]. exists []. rewrite app_nil_r.
      split; [done|]. split; [by intros ?? ?%elem_of_nil|done].
    - split; [apply delayed_refl|]. exists [(f, false)].
      split; [done|]. split; [|done].
      intros x b [= -> ->]%list_elem_of_singleton.
      by apply descendant_child.
    - pose proof (adjust_later _ _ _ _ Ha) as Hl.
      pose proof (delayed_insert _ _ _ _ Hf Hl) as Hdi.
      destruct (later_fields _ _ Hl) as (Hid & _ & _).
      destruct (valid_lookup _ _ _ Hv Hf) as [Hidf _].
      rewrite Hid, Hidf in Hr.
      destruct (IHn _ _ _ _ (delayed_valid _ _ Hdi Hv) Hr)
        as (Hd2 & Hl2 & Hm2).
      split; [by eapply delayed_trans|].
      exists ((f, true) :: log2). split; [done|]. split.
      + intros x b [[= -> ->]|Hin]%elem_of_cons.
        * by apply descendant_child.
        * eapply descendant_under; [exact Hkf|].
          apply (delayed_descendant _ _ _ _ Hdi). eauto.
      + intros x Hx. destruct (decide (x = f)) as [->|Hne]; [left|].
        right. apply Hm2. by rewrite lookup_insert_ne. }
  assert (valid db1) as Hv1 by eauto using delayed_valid.
  destruct (IHL db1 (log ++ l1) db' log' Hv1) as (Hd' & l2 & -> & Hl2 & Hm2).
  { intros f' Hf'. apply (delayed_follows _ _ _ _ Hd1). apply HL. by right. }
  { done. }
  split; [by eapply delayed_trans|].
  exists (l1 ++ l2). split; [by rewrite app_assoc|]. split.
  - intros x b [?|?]%elem_of_app; [eauto|].
    apply (delayed_descendant _ _ _ _ Hd1). eauto.
  - intros x Hx. apply elem_of_app.
    destruct (decide (db' !! x = db1 !! x)) as [E|]; [|auto].
    left. apply Hm1. congruence.
Qed.

Lemma cascade_returns_well n : returns_well order n.
Proof.
  induction n as [|n IHn]; intros db k db' log Hv; [done|].
  destruct (db !! k) as [tk|] eqn:Hk.
  - rewrite (cascade_stored _ _ _ _ Hv Hk). intros Hrun.
    destruct (loop_returns_well n k (followers order db k) IHn
                db [] db' log Hv) as (Hd & l1 & -> & ? & ?); [|done|done].
    intros f. by apply elem_of_followers.
  - rewrite cascade_missing by done. intros [= <- <-].
    split; [apply delayed_refl|]. split; [by intros ?? ?%elem_of_nil|done].
Qed.

Lemma cascade_delayed n db k db' log :
  valid db → cascade_updates order n db k = Some (db', log) →
  delayed db db'.
Proof. intros Hv Hr. by destruct (cascade_returns_well n _ _ _ _ Hv Hr). Qed.

Lemma cascade_examined_below n db k db' log x b :
  valid db → cascade_updates order n db k = Some (db', log) →
  (x, b) ∈ log → descendant db k x.
Proof.
  intros Hv Hr. destruct (cascade_returns_well n _ _ _ _ Hv Hr) as (_&H&_).
  apply H.
Qed.

Lemma cascade_changed_moved n db k db' log x :
  valid db → cascade_updates order n db k = Some (db', log) →
  db' !! x ≠ db !! x → (x, true) ∈ log.
Proof.
  intros Hv Hr. destruct (cascade_returns_well n _ _ _ _ Hv Hr) as (_&_&H).
  apply H.
Qed.

(** A cascade changes no task outside the set reachable from the root. *)
Lemma cascade_frame n db k db' log x :
  valid db → cascade_updates order n db k = Some (db', log) →
  ¬ descendant db k x → db' !! x = db !! x.
Proof.
  intros Hv Hr Hx. destruct (decide (db' !! x = db !! x)); [done|].
  destruct Hx. eauto using cascade_examined_below, cascade_changed_moved.
Qed.

(** A deeper bound on the recursion does not change what is returned. *)
Lemma for_each_visit_mono (r1 r2 : Store → Z → option (Store * Log)) :
  (∀ db k res, r1 db k = Some res → r2 db k = Some res) →
  ∀ L st res, for_each (visit r1) L st = Some res →
              for_each (visit r2) L st = Some res.
Proof.
  intros Hr. induction L as [|f L IH]; intros [db log] res; [done|].
  rewrite !for_each_cons.
  destruct (visit r1 (db, log) f) as [st1|] eqn:E; [|done].
  intros Hrest.
  assert (visit r2 (db, log) f = Some st1) as ->; [|by apply IH].
  revert E. unfold visit. destruct (db !! f) as [tf|]; [|done].
  destruct (adjust_start_date_based_on_dependency db tf) as [tf' []];
    [|done].
  destruct (r1 _ _) as [[db2 log2]|] eqn:E1; [|done].
  by rewrite (Hr _ _ _ E1).
Qed.

Lemma cascade_depth_mono n m db k res :
  cascade_updates order n db k = Some res → (n ≤ m)%nat →
  cascade_updates order m db k = Some res.
Proof.
  revert m db k res. induction n as [|n IH]; intros m db k res; [done|].
  destruct m as [|m]; [lia|]. simpl. intros Hr Hle.
  destruct (db !! k) as [tk|]; [|done].
  eapply for_each_visit_mono; [|exact Hr].
  intros ??? H. apply IH; [done|lia].
Qed.

(** ** Termination in forests *)

Lemma loop_returns_by_rank m k r L :
  (∀ db f r', valid db → forest db →
     rank (S (size db)) db f = Some r' → (S (size db) - r' < m)%nat →
     is_Some (cascade_updates order m db f)) →
  ∀ db log,
    valid db → forest db →
    rank (S (size db)) db k = Some r → (S (size db) - r < S m)%nat →
    (∀ f, f ∈ L → follows db k f) →
    is_Some (for_each (visit (cascade_updates order m)) L (db, log)).
Proof.
  intros IHm. induction L as [|f L IHL]; intros db log Hv Hf Hr Hlt HL;
    [by eexists|].
  rewrite for_each_cons.
  assert (follows db k f) as Hkf by (apply HL; left).
  assert (∃ db1 log1, visit (cascade_updates order m) (db, log) f
                        = Some (db1, log1) ∧ delayed db db1)
    as (db1 & log1 & -> & Hd1).
  { destruct Hkf as (tf & Htf & Hdep). unfold visit. rewrite Htf.
    destruct (adjust_start_date_based_on_dependency db tf)
      as [tf' b] eqn:Ha.
    destruct b; [|eauto using delayed_refl].
    pose proof (adjust_later _ _ _ _ Ha) as Hl.
    pose proof (delayed_insert _ _ _ _ Htf Hl) as Hdi.
    destruct (later_fields _ _ Hl) as (-> & _ & _).
    destruct (valid_lookup _ _ _ Hv Htf) as [-> _].
    pose proof (delayed_valid _ _ Hdi Hv) as Hv1.
    pose proof (delayed_forest _ _ Hdi Hf) as Hf1.
    pose proof (forest_rank_follower db k f r Hf
                  (ex_intro _ tf (conj Htf Hdep)) Hr) as Hrf.
    pose proof (rank_bound _ _ _ _ Hrf).
    destruct (IHm (<[f := tf']> db) f (S r) Hv1 Hf1) as [[db2 log2] Hr2].
    { by rewrite (delayed_size _ _ Hdi), (delayed_rank _ _ _ _ Hdi). }
    { rewrite (delayed_size _ _ Hdi). lia. }
    rewrite Hr2. eexists _, _. split; [done|].
    eapply delayed_trans; [exact Hdi|]. by eapply cascade_delayed. }
  apply IHL.
  - by eapply delayed_valid.
  - by eapply delayed_forest.
  - by rewrite (delayed_size _ _ Hd1), (delayed_rank _ _ _ _ Hd1).
  - by rewrite (delayed_size _ _ Hd1).
  - intros f' Hf'. apply (delayed_follows _ _ _ _ Hd1). apply HL. by right.
Qed.

Lemma cascade_returns_by_rank m :
  ∀ db k r, valid db → forest db →
    rank (S (size db)) db k = Some r → (S (size db) - r < m)%nat →
    is_Some (cascade_updates order m db k).
Proof.
  induction m as [|m IHm]; intros db k r Hv Hf Hr Hlt; [lia|].
  destruct (db !! k) as [tk|] eqn:Hk.
  - rewrite (cascade_stored _ _ _ _ Hv Hk).
    eapply loop_returns_by_rank; eauto.
    intros f. by apply elem_of_followers.
  - rewrite cascade_missing by done. by eexists.
Qed.

(** In a forest the recursion of a cascade closes: it is never deeper
    than the number of tasks plus one.  Whether the interpreter allows
    that many frames is a matter of its recursion limit. *)
Lemma cascade_returns_in_forest db k :
  valid db → forest db →
  is_Some (cascade_updates order (S (size db)) db k).
Proof.
  intros Hv Hf. destruct (db !! k) as [tk|] eqn:Hk.
  - destruct (Hf _ _ Hk) as [r Hr].
    apply (cascade_returns_by_rank _ db k r Hv Hf Hr).
    assert (r ≠ 0)%nat; [|lia].
    revert Hr. simpl. rewrite Hk.
    destruct (dependency_id tk); [|by intros [= <-]].
    destruct (rank _ _ _); [|done]. by intros [= <-].
  - rewrite cascade_missing by done. by eexists.
Qed.

(** ** Cycles *)

(** The loop body at a follower that has to move. *)
Lemma visit_moved recur db log k tk f tf :
  valid db → db !! k = Some tk → db !! f = Some tf →
  dependency_id tf = Some k → start_date tf < end_date tk →
  visit recur (db, log) f =
    match recur (<[f := with_start tf (end_date tk)]> db) f with
    | Some (db', log') => Some (db', log ++ (f, true) :: log')
    | None => None
    end.
Proof.
  intros Hv Hk Hf Hd Hlt. unfold visit.
  rewrite Hf, (adjust_follower _ _ _ _ _ Hv Hk Hf Hd).
  destruct (Z.ltb_spec (start_date tf) (end_date tk)); [|lia].
  simpl. by destruct (valid_lookup _ _ _ Hv Hf) as [-> _].
Qed.

Lemma visit_unmoved recur db log k tk f tf :
  valid db → db !! k = Some tk → db !! f = Some tf →
  dependency_id tf = Some k → end_date tk ≤ start_date tf →
  visit recur (db, log) f = Some (db, log ++ [(f, false)]).
Proof.
  intros Hv Hk Hf Hd Hlt. unfold visit.
  rewrite Hf, (adjust_follower _ _ _ _ _ Hv Hk Hf Hd).
  by destruct (Z.ltb_spec (start_date tf) (end_date tk)); [lia|].
Qed.

Lemma loop_keeps_tight n k tk L :
  keeps_tight order n → stays_open order n →
  ∀ db log db' log',
    valid db → db !! k = Some tk → (∀ f, f ∈ L → follows db k f) →
    for_each (visit (cascade_updates order n)) L (db, log)
      = Some (db', log') →
    ∀ a, tight db k a → db' !! a = db !! a.
Proof.
  intros HT HP. induction L as [|f L IHL];
    intros db log db' log' Hv Hk HL; [by intros [= <- <-]|].
  rewrite for_each_cons.
  destruct (visit _ (db, log) f) as [[db1 log1]|] eqn:Hvis; [|done].
  intros Hrest.
  destruct (HL f) as (tf & Hf & Hdep); [by left|].
  assert (delayed db db1 ∧ ∀ a, tight db k a → db1 !! a = db !! a)
    as [Hd1 Hsame].
  { destruct (Z.lt_ge_cases (start_date tf) (end_date tk)) as [Hlt|Hge].
    - rewrite (visit_moved _ _ _ _ _ _ _ Hv Hk Hf Hdep Hlt) in Hvis.
      destruct (cascade_updates _ _ _ _) as [[db2 log2]|] eqn:Hr; [|done].
      injection Hvis as -> <-.
      pose proof (delayed_insert db f tf (with_start tf (end_date tk)) Hf
                    (later_with_start _ _ (Z.lt_le_incl _ _ Hlt))) as Hdi.
      pose proof (delayed_valid _ _ Hdi Hv) as Hvi.
      split.
      { eapply delayed_trans; [exact Hdi|]. by eapply cascade_delayed. }
      intros a Ha. destruct (decide (a = f)) as [->|Hne].
      + exfalso.
        destruct (cycle_rotates _ _ _ _ _ Hk Hf Hdep Hlt Ha)
          as (tk' & Hk' & y2 & ty2 & Hy2 & Hd2 & Hlt2 & Ht2).
        rewrite (HP _ f _ y2 ty2 Hvi (lookup_insert_eq _ _ _) Hy2 Hd2
                    Hlt2 Ht2) in Hr. done.
      + destruct (cycle_rotates_edge db k tk f tf Hk Hf Hdep Hlt)
          as (tk' & Hk' & Hle').
        rewrite (HT _ _ _ _ Hvi Hr a);
          [by rewrite lookup_insert_ne by congruence|].
        eapply (tight_snoc _ k tk' f (with_start tf (end_date tk)));
          [done|apply lookup_insert_eq|done|done|].
        by eapply tight_after_move.
    - rewrite (visit_unmoved _ _ _ _ _ _ _ Hv Hk Hf Hdep Hge) in Hvis.
      injection Hvis as <- <-. split; [apply delayed_refl|done]. }
  intros a Ha. rewrite <-(Hsame a Ha).
  eapply (IHL db1 log1 db' log'); [by eapply delayed_valid| | |done|].
  - rewrite Hsame; [done|constructor].
  - intros f' Hf'. apply (delayed_follows _ _ _ _ Hd1). apply HL. by right.
  - by eapply tight_transfer.
Qed.

Lemma keeps_tight_and_stays_open n : keeps_tight order n ∧ stays_open order n.
Proof.
  induction n as [|n [HT HP]]; [by split|]. split.
  - intros db k db' log Hv Hrun a Ha.
    destruct (db !! k) as [tk|] eqn:Hk.
    + rewrite (cascade_stored _ _ _ _ Hv Hk) in Hrun.
      eapply (loop_keeps_tight n k tk); eauto.
      intros f. by apply elem_of_followers.
    + rewrite cascade_missing in Hrun by done. by injection Hrun as <- _.
  - intros db k tk y ty Hv Hk Hy Hdep Hlt Ht.
    rewrite (cascade_stored _ _ _ _ Hv Hk).
    assert (y ∈ followers order db k) as (L1 & L2 & H)%list_elem_of_split.
    { apply elem_of_followers; [done|]. by exists ty. }
    rewrite H, for_each_app.
    destruct (for_each _ L1 _) as [[db1 log1]|] eqn:H1; [|done].
    assert (∀ f, f ∈ L1 → follows db k f) as HL1.
    { intros f Hf. apply (elem_of_followers db k f Hv).
      rewrite H. apply elem_of_app. by left. }
    pose proof (loop_keeps_tight n k tk L1 HT HP _ _ _ _ Hv Hk HL1 H1)
      as Hsame.
    destruct (loop_returns_well n k L1 (cascade_returns_well n)
                _ _ _ _ Hv HL1 H1) as (Hd1 & _).
    pose proof (delayed_valid _ _ Hd1 Hv) as Hv1.
    assert (db1 !! k = Some tk) as Hk1 by (rewrite Hsame; [done|constructor]).
    assert (db1 !! y = Some ty) as Hy1 by (by rewrite Hsame).
    rewrite for_each_cons.
    rewrite (visit_moved _ _ _ _ _ _ _ Hv1 Hk1 Hy1 Hdep Hlt).
    destruct (cycle_rotates _ _ _ _ _ Hk1 Hy1 Hdep Hlt
                (tight_transfer _ _ _ _ Ht Hsame))
      as (tk' & Hk' & y2 & ty2 & Hy2 & Hd2 & Hlt2 & Ht2).
    rewrite (HP _ y (with_start ty (end_date tk)) y2 ty2);
      [done| |apply lookup_insert_eq|done..].
    eapply delayed_valid; [|exact Hv1].
    apply (delayed_insert _ _ _ _ Hy1), later_with_start. lia.
Qed.

End Walker.

(** ** What a cascade examines in a forest *)

Lemma reaches_descendant db k x e : reaches db k x e → descendant db k x.
Proof.
  induction 1 as [r x t Hr Hx Hd|p tp e x t _ IH Hp Hlt Hx Hd].
  - apply descendant_child. by exists t.
  - eapply descendant_below; [exact IH|]. by exists t.
Qed.

Lemma reaches_unique db k x e1 e2 :
  forest db → reaches db k x e1 → reaches db k x e2 → e1 = e2.
Proof.
  intros Hf H1. revert e2.
  induction H1 as [r x t Hr Hx Hd|p tp e x t Hp IH Htp Hlt Hx Hd];
    intros e2 H2.
  - inversion H2 as [r' x' t' Hr' Hx' Hd'|p' tp' e' x' t' Hp' Htp' Hlt' Hx' Hd'];
      subst.
    + congruence.
    + exfalso. assert (p' = k) as -> by congruence.
      apply (forest_acyclic db k Hf). by eapply reaches_descendant.
  - inversion H2 as [r' x' t' Hr' Hx' Hd'|p' tp' e' x' t' Hp' Htp' Hlt' Hx' Hd'];
      subst.
    + exfalso. assert (p = k) as -> by congruence.
      apply (forest_acyclic db k Hf). by eapply reaches_descendant.
    + assert (p' = p) as -> by congruence.
      assert (tp' = tp) as -> by congruence.
      by rewrite (IH _ Hp').
Qed.

Lemma reaches_root_stored db k x e : reaches db k x e → is_Some (db !! k).
Proof. induction 1; eauto. Qed.

(** Whatever a cascade examines lies in the subtree of a direct follower. *)
Lemma reaches_first db k x e :
  reaches db k x e → ∃ f, follows db k f ∧ rtc (follows db) f x.
Proof.
  induction 1 as [r x t Hr Hx Hd|p tp e x t _ (f & Hf & Hfp) Hp Hlt Hx Hd].
  - exists x. split; [by exists t|done].
  - exists f. split; [done|]. eapply rtc_r; [done|]. by exists t.
Qed.

(** Nothing is examined below a task that is examined and not moved. *)
Lemma unreached_below db k f tf e x e' :
  forest db → reaches db k f e → db !! f = Some tf → e ≤ start_date tf →
  descendant db f x → ¬ reaches db k x e'.
Proof.
  intros Hfo Hf Htf Hle Hx. revert e'. pattern x.
  eapply tc_ind_r; [| |exact Hx]; simpl.
  - intros z (tz & Hz & Hdz) e' Hr.
    inversion Hr as [r' x' t' Hr' Hx' Hd'|p' tp' e0 x' t' Hp' Htp' Hlt' Hx' Hd'];
      subst.
    + assert (f = k) as -> by congruence.
      apply (forest_acyclic db k Hfo). by eapply reaches_descendant.
    + assert (p' = f) as -> by congruence.
      assert (tp' = tf) as -> by congruence.
      rewrite (reaches_unique _ _ _ _ _ Hfo Hp' Hf) in Hlt'. lia.
  - intros y z Hy (tz & Hz & Hdz) IH e' Hr.
    inversion Hr as [r' x' t' Hr' Hx' Hd'|p' tp' e0 x' t' Hp' Htp' Hlt' Hx' Hd'];
      subst.
    + assert (y = k) as -> by congruence.
      apply (forest_acyclic db k Hfo).
      eapply tc_transitive; [exact (reaches_descendant _ _ _ _ Hf)|exact Hy].
    + assert (p' = y) as -> by congruence. by eapply IH.
Qed.

Section Subtree.

(** The situation when the loop of a cascade from [k] has just moved
    the follower [f]: [db] is the table the cascade started from and
    [now] the table at this moment, in which nothing at or below [f]
    has changed yet except the start of [f] itself. *)
Variables (db now : Store) (k f : Z) (tk tf : Task).
Hypothesis forest_db : forest db.
Hypothesis stored_k : db !! k = Some tk.
Hypothesis stored_f : db !! f = Some tf.
Hypothesis f_follows_k : dependency_id tf = Some k.
Hypothesis f_early : start_date tf < end_date tk.
Hypothesis now_delayed : delayed db now.
Hypothesis now_f : now !! f = Some (with_start tf (end_date tk)).
Hypothesis now_below : ∀ x, descendant db f x → now !! x = db !! x.

Lemma k_reaches_f : reaches db k f (end_date tk).
Proof. by eapply reaches_follower. Qed.

(** What the cascade from [f] examines now is what the cascade from
    [k] examines below [f]. *)
Lemma reaches_now_then x e : reaches now f x e → reaches db k x e.
Proof.
  induction 1 as [r x t Hr Hx Hd|p tp e x t Hp IH Htp Hlt Hx Hd].
  - assert (r = with_start tf (end_date tk)) as -> by congruence.
    assert (descendant db f x) as Hdx.
    { apply descendant_child, (delayed_follows _ _ _ _ now_delayed).
      by exists t. }
    rewrite now_below in Hx by done.
    change (end_date (with_start tf (end_date tk)))
      with (end_date tk + duration_days tf).
    eapply reaches_below; [apply k_reaches_f|done..].
  - assert (descendant db f p) as Hdp.
    { apply (delayed_descendant _ _ _ _ now_delayed).
      by eapply reaches_descendant. }
    assert (descendant db f x) as Hdx.
    { eapply descendant_below; [exact Hdp|].
      apply (delayed_follows _ _ _ _ now_delayed). by exists t. }
    rewrite now_below in Htp, Hx by done.
    by eapply reaches_below.
Qed.

Lemma reaches_then_now x e :
  reaches db k x e → descendant db f x → reaches now f x e.
Proof.
  induction 1 as [r x t Hr Hx Hd|p tp e x t Hp IH Htp Hlt Hx Hd];
    intros Hdx.
  - exfalso.
    destruct (descendant_inv _ _ k _ Hdx) as [->|Hd']; [by exists t| |].
    + apply (forest_no_self_loop db f forest_db). by exists tf.
    + eapply (forest_not_below_follower db k f); [done| |done].
      by exists tf.
  - destruct (descendant_inv _ _ p _ Hdx) as [->|Hdp]; [by exists t| |].
    + assert (tp = tf) as -> by congruence.
      rewrite (reaches_unique _ _ _ _ _ forest_db Hp k_reaches_f).
      change (end_date tk + duration_days tf)
        with (end_date (with_start tf (end_date tk))).
      eapply reaches_follower; [done| |done].
      by rewrite now_below.
    + eapply reaches_below; [by apply IH| |done| |done].
      * by rewrite now_below.
      * by rewrite now_below.
Qed.

End Subtree.

Section Forests.

Variable order : list Task → list Task.
Hypothesis order_perm : ∀ l, order l ≡ₚ l.

(** One turn of the loop, at a follower [f] below which nothing has
    changed yet. *)
Lemma visit_closed n db k tk f tf now log now' log' :
  closed order n →
  valid db → forest db → db !! k = Some tk →
  db !! f = Some tf → dependency_id tf = Some k →
  delayed db now → now !! k = Some tk →
  (∀ x, rtc (follows db) f x → now !! x = db !! x) →
  visit (cascade_updates order n) (now, log) f = Some (now', log') →
  (∀ x t, now !! x = Some t →
     (∃ e, rtc (follows db) f x ∧ reaches db k x e ∧
           now' !! x = Some (pushed t e)) ∨
     ((rtc (follows db) f x → ∀ e, ¬ reaches db k x e) ∧
      now' !! x = Some t)) ∧
  delayed now now' ∧
  (∀ x, ¬ rtc (follows db) f x → now' !! x = now !! x) ∧
  ∃ l1, log' = log ++ l1 ∧
        ∀ x b, (x, b) ∈ l1 →
          ∃ t e, db !! x = Some t ∧ reaches db k x e ∧
                 b = (start_date t <? e).
Proof.
  intros IHn Hv Hfo Hk Hf Hdep Hdel Hnk Hsame.
  assert (valid now) as Hvn by eauto using delayed_valid.
  assert (now !! f = Some tf) as Hnf by (by rewrite Hsame).
  pose proof (reaches_follower db k tk f tf Hk Hf Hdep) as Hkf.
  destruct (Z.lt_ge_cases (start_date tf) (end_date tk)) as [Hlt|Hge].
  - rewrite (visit_moved _ _ _ _ _ _ _ Hvn Hnk Hnf Hdep Hlt).
    set (tf' := with_start tf (end_date tk)).
    destruct (cascade_updates _ _ _ _) as [[db2 log2]|] eqn:Hr; [|done].
    intros [= <- <-].
    pose proof (delayed_insert now f tf tf' Hnf
                  (later_with_start _ _ (Z.lt_le_incl _ _ Hlt))) as Hdi.
    pose proof (delayed_trans _ _ _ Hdel Hdi) as Hdel'.
    pose proof (delayed_valid _ _ Hdi Hvn) as Hvi.
    pose proof (delayed_forest _ _ Hdel' Hfo) as Hfi.
    destruct (IHn _ _ _ _ Hvi Hfi Hr) as [Hrows Hlog].
    assert (∀ x, descendant db f x → <[f := tf']> now !! x = db !! x)
      as Hbelow.
    { intros x Hx.
      rewrite lookup_insert_ne
        by (intros ->; by apply (forest_acyclic db x Hfo)).
      apply Hsame. by apply tc_rtc. }
    pose proof (reaches_now_then db (<[f := tf']> now) k f tk tf Hk Hf
                  Hdep Hlt Hdel' (lookup_insert_eq _ _ _) Hbelow) as Hin.
    pose proof (reaches_then_now db (<[f := tf']> now) k f tk tf Hfo Hk Hf
                  Hdep (lookup_insert_eq _ _ _) Hbelow) as Hout.
    assert (∀ x e, reaches (<[f := tf']> now) f x e → descendant db f x)
      as Hdesc.
    { intros x e Hx. apply (delayed_descendant _ _ _ _ Hdel').
      by eapply reaches_descendant. }
    split; [|split; [|split]].
    + intros x t Hx. destruct (decide (x = f)) as [->|Hne].
      * assert (t = tf) as -> by congruence.
        left. exists (end_date tk). split; [done|]. split; [done|].
        destruct (Hrows f tf' (lookup_insert_eq _ _ _))
          as [(e & He & _)|[_ ->]].
        -- exfalso. apply (forest_acyclic db f Hfo), (Hdesc _ _ He).
        -- unfold pushed.
           by destruct (Z.ltb_spec (start_date tf) (end_date tk)); [|lia].
      * destruct (Hrows x t) as [(e & He & ->)|[Hno ->]].
        -- by rewrite lookup_insert_ne.
        -- left. exists e. split; [apply tc_rtc, (Hdesc _ _ He)|].
           split; [eauto|done].
        -- right. split; [|done].
           intros [?|Hdx]%rtc_tc e He; [congruence|]. eapply Hno; eauto.
    + eapply delayed_trans; [exact Hdi|]. by eapply cascade_delayed.
    + intros x Hx. rewrite (cascade_frame _ order_perm _ _ _ _ _ x Hvi Hr).
      * apply lookup_insert_ne. intros ->. by apply Hx.
      * intros Hd. apply Hx, tc_rtc.
        by apply (delayed_descendant _ _ _ _ Hdel').
    + exists ((f, true) :: log2). split; [done|].
      intros x b [[= -> ->]|Hx]%elem_of_cons.
      * exists tf, (end_date tk). split; [done|]. split; [done|].
        by destruct (Z.ltb_spec (start_date tf) (end_date tk)); [|lia].
      * destruct (Hlog _ _ Hx) as (t & e & Ht & He & ->).
        exists t, e. split; [|split; [eauto|done]].
        rewrite <-Hbelow; eauto.
  - rewrite (visit_unmoved _ _ _ _ _ _ _ Hvn Hnk Hnf Hdep Hge).
    intros [= <- <-]. split; [|split; [|split]].
    + intros x t Hx. destruct (decide (x = f)) as [->|Hne].
      * assert (t = tf) as -> by congruence.
        left. exists (end_date tk). split; [done|]. split; [done|].
        rewrite Hx. unfold pushed.
        by destruct (Z.ltb_spec (start_date tf) (end_date tk)); [lia|].
      * right. split; [|done].
        intros [?|Hdx]%rtc_tc e; [congruence|].
        by eapply unreached_below.
    + apply delayed_refl.
    + done.
    + exists [(f, false)]. split; [done|].
      intros x b [= -> ->]%list_elem_of_singleton.
      exists tf, (end_date tk). split; [done|]. split; [done|].
      by destruct (Z.ltb_spec (start_date tf) (end_date tk)); [lia|].
Qed.

Lemma loop_closed n db k tk L :
  closed order n →
  valid db → forest db → db !! k = Some tk →
  NoDup L → (∀ f, f ∈ L → follows db k f) →
  ∀ now log db' log',
    delayed db now → now !! k = Some tk →
    (∀ f x, f ∈ L → rtc (follows db) f x → now !! x = db !! x) →
    for_each (visit (cascade_updates order n)) L (now, log)
      = Some (db', log') →
    (∀ x t, now !! x = Some t →
       (∃ f e, f ∈ L ∧ rtc (follows db) f x ∧ reaches db k x e ∧
               db' !! x = Some (pushed t e)) ∨
       ((∀ f e, f ∈ L → rtc (follows db) f x → ¬ reaches db k x e) ∧
        db' !! x = Some t)) ∧
    ∃ l1, log' = log ++ l1 ∧
          ∀ x b, (x, b) ∈ l1 →
            ∃ t e, db !! x = Some t ∧ reaches db k x e ∧
                   b = (start_date t <? e).
Proof.
  intros IHn Hv Hfo Hk. induction L as [|f L IHL];
    intros Hnd HL now log db' log' Hdel Hnk Hsame.
  { intros [= <- <-]. split.
    - intros x t Hx. right. split; [|done]. by intros ?? ?%elem_of_nil.
    - exists []. rewrite app_nil_r. split; [done|].
      by intros ?? ?%elem_of_nil. }
  rewrite for_each_cons.
  destruct (visit _ (now, log) f) as [[now1 log1]|] eqn:Hvis; [|done].
  intros Hrest.
  apply NoDup_cons in Hnd as [HfL Hnd].
  destruct (HL f) as (tf & Hf & Hdep); [by left|].
  assert (follows db k f) as Hkf by (by exists tf).
  destruct (visit_closed n db k tk f tf now log now1 log1 IHn Hv Hfo Hk Hf
              Hdep Hdel Hnk) as (Hrows1 & Hd1 & Hframe1 & l1 & -> & Hl1);
    [intros x Hx; apply (Hsame f); [by left|done]|done|].
  assert (∀ f' x, f' ∈ L → rtc (follows db) f' x → ¬ rtc (follows db) f x)
    as Hapart.
  { intros f' x Hf' Hx' Hx. apply HfL.
    assert (follows db k f') as Hkf' by (apply HL; by right).
    by rewrite (forest_subtrees_disjoint db k f f' x Hfo Hkf Hkf' Hx Hx'). }
  destruct (IHL Hnd (λ f' H, HL f' (list_elem_of_further _ _ _ H))
              now1 (log ++ l1) db' log')
    as (Hrows & l2 & -> & Hl2); [by eapply delayed_trans| | |done|].
  { rewrite Hframe1; [done|].
    intros [E|Hd]%rtc_tc.
    - rewrite E in Hkf. exact (forest_no_self_loop _ _ Hfo Hkf).
    - exact (forest_not_below_follower db k f Hfo Hkf Hd). }
  { intros f' x Hf' Hx. rewrite Hframe1 by eauto.
    apply (Hsame f'); [by right|done]. }
  split.
  - intros x t Hx.
    destruct (Hrows1 x t Hx) as [(e & Hfx & He & Hx1)|[Hno Hx1]];
      destruct (Hrows x _ Hx1) as [(f' & e' & Hf' & Hfx' & He' & Hx')
                                  |[Hno' Hx']].
    + exfalso. by eapply Hapart.
    + left. exists f, e. split; [by left|done].
    + left. exists f', e'. split; [by right|done].
    + right. split; [|done].
      intros f' e' [->|Hf']%elem_of_cons Hfx'; eauto.
  - exists (l1 ++ l2). split; [by rewrite app_assoc|].
    intros x b [?|?]%elem_of_app; eauto.
Qed.

Lemma cascade_closed n : closed order n.
Proof.
  induction n as [|n IHn]; intros db k db' log Hv Hfo; [done|].
  destruct (db !! k) as [tk|] eqn:Hk.
  - rewrite (cascade_stored _ _ _ _ _ Hv Hk). intros Hrun.
    destruct (loop_closed n db k tk (followers order db k) IHn Hv Hfo Hk
                (NoDup_followers _ order_perm _ _ Hv)
                (λ f, proj1 (elem_of_followers _ order_perm db k f Hv))
                db [] db' log (delayed_refl _) Hk (λ _ _ _ _, eq_refl) Hrun)
      as (Hrows & l1 & -> & Hl1).
    split; [|done]. intros x t Hx.
    destruct (Hrows x t Hx) as [(f & e & _ & _ & He & Hx')|[Hno Hx']].
    + left. eauto.
    + right. split; [|done]. intros e He.
      destruct (reaches_first _ _ _ _ He) as (f & Hf & Hfx).
      eapply Hno; [|done|done].
      by apply elem_of_followers.
  - rewrite cascade_missing by done. intros [= <- <-]. split.
    + intros x t Hx. right. split; [|done].
      intros e [r Hr]%reaches_root_stored. congruence.
    + by intros ?? ?%elem_of_nil.
Qed.

End Forests.

(** ** Rows that have been pushed *)

Lemma pushed_start t e : e ≤ start_date (pushed t e).
Proof.
  unfold pushed. destruct (Z.ltb_spec (start_date t) e); simpl; lia.
Qed.


Lemma pushed_end t e :
  start_date t < e → end_date (pushed t e) = e + duration_days t.
Proof.
  intros Hlt. unfold pushed.
  by destruct (Z.ltb_spec (start_date t) e); [|lia].
Qed.

Lemma pushed_unmoved t e : e ≤ start_date t → pushed t e = t.
Proof.
  intros Hle. unfold pushed.
  by destruct (Z.ltb_spec (start_date t) e); [lia|].
Qed.

(** A loop over followers that all start late enough changes nothing. *)
Lemma loop_settled recur (db : Store) k tk L log :
  valid db → db !! k = Some tk →
  (∀ f, f ∈ L → ∃ tf, db !! f = Some tf ∧ dependency_id tf = Some k ∧
                      end_date tk ≤ start_date tf) →
  for_each (visit recur) L (db, log)
    = Some (db, log ++ ((λ f, (f, false)) <$> L)).
Proof.
  intros Hv Hk. revert log. induction L as [|f L IH]; intros log HL.
  { simpl. by rewrite app_nil_r. }
  destruct (HL f) as (tf & Hf & Hd & Hle); [by left|].
  rewrite for_each_cons, (visit_unmoved _ _ _ _ _ _ _ Hv Hk Hf Hd Hle).
  rewrite IH by (intros ??; apply HL; by right).
  by rewrite <-app_assoc.
Qed.

(** When the invariant holds for every task except the direct followers
    of [k], it holds for every task whose predecessor lies below [k]. *)
Lemma settled_below db k p x t :
  forest db → settled_except_after db k →
  descendant db k p → db !! x = Some t → dependency_id t = Some p →
  starts_after_predecessor db t.
Proof.
  intros Hfo Hs Hp Hx Hd. destruct (Hs _ _ Hx) as [Hk|]; [|done].
  exfalso. assert (p = k) as -> by congruence.
  by apply (forest_acyclic db k).
Qed.

(** * The properties of the specification *)

(** Decides a decidable statement about an example table by evaluation. *)
Ltac by_evaluation := apply (bool_decide_unpack _); vm_compute; exact I.

Lemma as_stored_perm l : as_stored l ≡ₚ l.
Proof. done. Qed.

Lemma reverse_perm (l : list Task) : reverse l ≡ₚ l.
Proof. apply reverse_Permutation. Qed.

(** ** The Adjustment Rule *)

(** C1.  For a task whose predecessor is present and stored, and ends on
    a calendar date, the rule computes the predecessor's end as its start
    plus its duration; a task that starts strictly before that end is
    moved onto it and reported as moved, and a task that starts on or
    after it is left unchanged and reported as not moved. *)
Theorem adjustment_rule db task d parent :
  valid db → dependency_id task = Some d → db !! d = Some parent →
  ends_in_calendar parent →
  let predecessor_end := start_date parent + duration_days parent in
  (start_date task < predecessor_end →
   adjust_start_date_based_on_dependency db task
     = (with_start task predecessor_end, true)) ∧
  (predecessor_end ≤ start_date task →
   adjust_start_date_based_on_dependency db task = (task, false)).
Proof.
  intros Hv Hd Hp _. simpl.
  destruct (valid_lookup _ _ _ Hv Hp) as [_ Hpos].
  rewrite (adjust_against db task d parent Hd) by (done || lia).
  unfold end_date.
  split; intros H;
    destruct (Z.ltb_spec (start_date task)
                (start_date parent + duration_days parent)); (done || lia).
Qed.

Lemma adjustment_rule_witness :
  adjust_start_date_based_on_dependency example_tree (task 2 3 2 (Some 1))
    = (task 2 6 2 (Some 1), true) ∧
  adjust_start_date_based_on_dependency example_tree (task 9 6 2 (Some 1))
    = (task 9 6 2 (Some 1), false).
Proof.
  split.
  - apply (adjustment_rule example_tree (task 2 3 2 (Some 1)) 1
             (task 1 1 5 None));
      [by_evaluation|reflexivity|reflexivity|by_evaluation|].
    simpl. lia.
  - apply (adjustment_rule example_tree (task 9 6 2 (Some 1)) 1
             (task 1 1 5 None));
      [by_evaluation|reflexivity|reflexivity|by_evaluation|].
    simpl. lia.
Defined.



(** ** Deletion *)

(** C9.  Deleting a task runs no propagation: every other row, and so
    every follower of the deleted task, is left exactly as it was, its
    [dependency_id] now naming a task that is not stored, which the rule
    treats as no predecessor. *)
Theorem delete_leaves_followers db task_id f tf :
  db !! f = Some tf → dependency_id tf = Some task_id → f ≠ task_id →
  let db' := (delete_task_api db task_id).1 in
  db' !! f = Some tf ∧ db' !! task_id = None ∧
  adjust_start_date_based_on_dependency db' tf = (tf, false).
Proof.
  intros Hf Hd Hne. simpl.
  assert ((delete_task_api db task_id).1 !! task_id = None) as Hgone.
  { unfold delete_task_api. destruct (db !! task_id) eqn:E; simpl; [|done].
    apply lookup_delete_eq. }
  split; [|split; [done|]].
  - unfold delete_task_api. destruct (db !! task_id); simpl; [|done].
    by rewrite lookup_delete_ne.
  - unfold adjust_start_date_based_on_dependency. rewrite Hd, Hgone.
    by destruct (task_id =? 0).
Qed.

Lemma delete_leaves_followers_witness :
  (delete_task_api example_tree 1).1 !! 2 = Some (task 2 3 2 (Some 1)) ∧
  (delete_task_api example_tree 1).1 !! 1 = None ∧
  adjust_start_date_based_on_dependency (delete_task_api example_tree 1).1
    (task 2 3 2 (Some 1)) = (task 2 3 2 (Some 1), false).
Proof.
  apply (delete_leaves_followers example_tree 1 2 (task 2 3 2 (Some 1)));
    [reflexivity|reflexivity|lia].
Defined.

(** ** The root of a cascade *)




(** ** Cycles *)

(** The two-task cycle of Scenario E is tense at task 1. *)
Lemma example_cycle_tight : tight example_cycle 1 2.
Proof.
  eapply (tight_edge _ _ 2 (task 2 0 1 (Some 1)) 1 (task 1 0 1 (Some 2)));
    [reflexivity|reflexivity|reflexivity|unfold end_date; simpl; lia|].
  constructor.
Qed.

(** C3, as stated, fails: on the two-task cycle no recursion depth lets
    the cascade from task 1 return, with a cycle report or otherwise. *)
Lemma cycle_cascade_never_returns :
  ¬ ∃ n result, cascade_updates as_stored n example_cycle 1 = Some result.
Proof.
  intros (n & result & Hrun).
  destruct (keeps_tight_and_stays_open as_stored as_stored_perm n) as [_ HP].
  rewrite (HP example_cycle 1 (task 1 0 1 (Some 2)) 2 (task 2 0 1 (Some 1)))
    in Hrun; [done|by_evaluation|reflexivity|reflexivity|reflexivity| |].
  - unfold end_date. simpl. lia.
  - apply example_cycle_tight.
Qed.

(** C3, amended.  The walker keeps no visit bound and reports no cycle.
    When the root lies on a cycle of follower edges along which every task
    starts no later than its predecessor ends, and the root's follower on
    that cycle starts before the root ends, the cascade is still recursing
    at every depth: it never returns. *)
Theorem tense_cycle_never_returns order db k tk y ty n :
  (∀ l, order l ≡ₚ l) → valid db →
  db !! k = Some tk → db !! y = Some ty → dependency_id ty = Some k →
  start_date ty < end_date tk → tight db k y →
  cascade_updates order n db k = None.
Proof.
  intros Hperm Hv Hk Hy Hd Hlt Ht.
  destruct (keeps_tight_and_stays_open order Hperm n) as [_ HP].
  by eapply HP.
Qed.

Lemma tense_cycle_never_returns_witness :
  cascade_updates as_stored 1000 example_cycle 1 = None.
Proof.
  apply (tense_cycle_never_returns as_stored example_cycle 1
           (task 1 0 1 (Some 2)) 2 (task 2 0 1 (Some 1)) 1000 as_stored_perm);
    [by_evaluation|reflexivity|reflexivity|reflexivity| |].
  - unfold end_date. simpl. lia.
  - eapply (tight_edge _ _ 2 (task 2 0 1 (Some 1)) 1 (task 1 0 1 (Some 2)));
      [reflexivity|reflexivity|reflexivity|unfold end_date; simpl; lia|].
    constructor.
Defined.

(** ** The invariant after a cascade *)

(** In a forest, a cascade that returns leaves every task below the root
    no earlier than the end of its predecessor, provided that this held
    beforehand for the tasks whose predecessor lies below the root. *)
Lemma cascade_settles order n db k db' log :
  (∀ l, order l ≡ₚ l) → valid db → forest db →
  (∀ p x t, descendant db k p → db !! x = Some t →
            dependency_id t = Some p → starts_after_predecessor db t) →
  cascade_updates order n db k = Some (db', log) →
  ∀ x t', descendant db k x → db' !! x = Some t' →
          starts_after_predecessor db' t'.
Proof.
  intros Hperm Hv Hfo Hpre Hrun x t' Hx Hx'.
  destruct (cascade_closed order Hperm n _ _ _ _ Hv Hfo Hrun) as [Hrows _].
  pose proof (cascade_delayed order Hperm _ _ _ _ _ Hv Hrun) as Hdel.
  destruct (delayed_lookup_r _ _ _ _ Hdel Hx') as (t & Ht & Hl).
  unfold starts_after_predecessor.
  destruct (later_fields _ _ Hl) as (_ & _ & ->).
  destruct (dependency_id t) as [d|] eqn:Hd; [|done].
  destruct (db' !! d) as [p'|] eqn:Hp'; [|done].
  destruct (delayed_lookup_r _ _ _ _ Hdel Hp') as (p & Hp & _).
  assert (∀ e, reaches db k x e → e ≤ start_date t') as Hpushed.
  { intros e He.
    destruct (Hrows x t Ht) as [(e' & He' & Hxe)|[Hno _]];
      [|by destruct (Hno _ He)].
    rewrite (reaches_unique _ _ _ _ _ Hfo He' He), Hx' in Hxe.
    injection Hxe as ->. apply pushed_start. }
  assert (follows db d x) as Hdx by (by exists t).
  destruct (descendant_inv _ _ d _ Hx Hdx) as [->|Hkd].
  - rewrite (cascade_frame order Hperm _ _ _ _ _ k Hv Hrun), Hp in Hp'
      by (by apply forest_acyclic).
    injection Hp' as <-. apply Hpushed. by eapply reaches_follower.
  - assert ((∀ e, ¬ reaches db k x e) → end_date p ≤ start_date t')
      as Hleft.
    { intros Hno.
      destruct (Hrows x t Ht) as [(e' & He' & _)|[_ Hxe]];
        [by destruct (Hno e')|].
      rewrite Hx' in Hxe. injection Hxe as ->.
      specialize (Hpre d x t Hkd Ht Hd).
      unfold starts_after_predecessor in Hpre. by rewrite Hd, Hp in Hpre. }
    destruct (Hrows d p Hp) as [(e & He & Hde)|[Hno Hde]];
      rewrite Hp' in Hde; injection Hde as ->.
    + destruct (Z.lt_ge_cases (start_date p) e) as [Hlt|Hge].
      * rewrite pushed_end by done. apply Hpushed.
        by eapply reaches_below.
      * rewrite pushed_unmoved by done. apply Hleft.
        intros e'. eapply unreached_below; [done|exact He|done|done|].
        by apply descendant_child.
    + apply Hleft. intros e' He'.
      inversion He' as [r ? ? Hr ? Hdk|q tq e0 ? ? Hq ? ? ? Hdq]; subst.
      * assert (d = k) as -> by congruence. by apply (forest_acyclic db k).
      * assert (q = d) as -> by congruence. by apply (Hno e0).
Qed.

(** C2, as stated, fails: in the forest of Scenario D the cascade from P
    returns, H is reachable from P and its predecessor F2 is present, yet
    H still starts before F2 ends. *)
Lemma pruned_subtree_left_unsettled :
  valid example_tree ∧ forest example_tree ∧
  ¬ (∀ n db' log,
       cascade_updates as_stored n example_tree 1 = Some (db', log) →
       ∀ x t, descendant example_tree 1 x → db' !! x = Some t →
              starts_after_predecessor db' t).
Proof.
  split; [by_evaluation|]. split; [by_evaluation|]. intros Hclaim.
  destruct (cascade_updates as_stored 6 example_tree 1) as [[db' log]|] eqn:E;
    [|vm_compute in E; discriminate E].
  assert (descendant example_tree 1 5) as Hd.
  { eapply (descendant_below _ 1 3 5).
    - apply descendant_child. by exists (task 3 10 5 (Some 1)).
    - by exists (task 5 1 1 (Some 3)). }
  assert (db' !! 5 = Some (task 5 1 1 (Some 3))) as H5.
  { vm_compute in E. injection E as <- _. reflexivity. }
  assert (db' !! 3 = Some (task 3 10 5 (Some 1))) as H3.
  { vm_compute in E. injection E as <- _. reflexivity. }
  specialize (Hclaim 6%nat db' log E 5 _ Hd H5).
  unfold starts_after_predecessor in Hclaim. simpl in Hclaim.
  rewrite H3 in Hclaim. unfold end_date in Hclaim. simpl in Hclaim. lia.
Qed.

(** C2, amended.  In a forest in which every task whose predecessor is
    reachable from the root already starts no earlier than that
    predecessor ends (only the edges out of the root may be violated, as
    after an edit of the root), when the cascade returns every task
    reachable from the root starts no earlier than the end of its present
    predecessor, and no task outside the reachable set was modified. *)
Theorem cascade_restores_invariant order n db k db' log :
  (∀ l, order l ≡ₚ l) → valid db → forest db →
  (∀ p x t, descendant db k p → db !! x = Some t →
            dependency_id t = Some p → starts_after_predecessor db t) →
  cascade_updates order n db k = Some (db', log) →
  (∀ x t, descendant db k x → db' !! x = Some t →
          starts_after_predecessor db' t) ∧
  (∀ x, ¬ descendant db k x → db' !! x = db !! x).
Proof.
  intros Hperm Hv Hfo Hpre Hrun. split.
  - by eapply cascade_settles.
  - intros x Hx. by eapply cascade_frame.
Qed.

Lemma cascade_restores_invariant_witness :
  ∃ db' log,
    cascade_updates as_stored 4 example_chain 1 = Some (db', log) ∧
    (∀ x t, descendant example_chain 1 x → db' !! x = Some t →
            starts_after_predecessor db' t) ∧
    (∀ x, ¬ descendant example_chain 1 x → db' !! x = example_chain !! x).
Proof.
  destruct (cascade_updates as_stored 4 example_chain 1) as [[db' log]|] eqn:E;
    [|vm_compute in E; discriminate E].
  exists db', log. split; [reflexivity|].
  apply (cascade_restores_invariant as_stored 4 example_chain 1 db' log
           as_stored_perm); [by_evaluation|by_evaluation| |exact E].
  intros p x t. apply settled_below; by_evaluation.
Defined.

(** ** Pruning *)

(** C4, as stated, fails on a cycle: when A and B depend on each other
    and last zero days, the cascade from A moves B, examines A as the
    follower of B without moving it, and returns; A has been examined and
    not moved, yet its descendant B was examined and changed. *)
Lemma pruning_fails_on_cycle :
  valid example_idle_cycle ∧
  ∃ db' log,
    cascade_updates as_stored 3 example_idle_cycle 1 = Some (db', log) ∧
    (1, false) ∈ log ∧ descendant example_idle_cycle 1 2 ∧
    (2, true) ∈ log ∧ db' !! 2 ≠ example_idle_cycle !! 2.
Proof.
  split; [by_evaluation|].
  destruct (cascade_updates as_stored 3 example_idle_cycle 1)
    as [[db' log]|] eqn:E; [|vm_compute in E; discriminate E].
  exists db', log. split; [reflexivity|].
  vm_compute in E. injection E as <- <-.
  split; [apply list_elem_of_In; simpl; tauto|].
  split; [apply descendant_child; by exists (task 2 1 0 (Some 1))|].
  split; [apply list_elem_of_In; simpl; tauto|].
  intros H. vm_compute in H. discriminate H.
Qed.

(** C4, amended.  In a forest, when a cascade has examined a follower and
    the rule has not moved it, the cascade has examined none of that
    follower's descendants and has left each of them as it was. *)
Theorem pruning_correct order db k n db' log f x :
  (∀ l, order l ≡ₚ l) → valid db → forest db →
  cascade_updates order n db k = Some (db', log) →
  (f, false) ∈ log → descendant db f x →
  (∀ b, (x, b) ∉ log) ∧ db' !! x = db !! x.
Proof.
  intros Hperm Hv Hfo Hrun Hf Hx.
  destruct (cascade_closed order Hperm n _ _ _ _ Hv Hfo Hrun) as [Hrows Hlog].
  destruct (Hlog _ _ Hf) as (tf & e & Htf & He & Hb).
  assert (e ≤ start_date tf) as Hle.
  { destruct (Z.ltb_spec (start_date tf) e); [done|lia]. }
  assert (∀ e', ¬ reaches db k x e') as Hno.
  { intros e'. by eapply unreached_below. }
  split.
  - intros b Hb'. destruct (Hlog _ _ Hb') as (_ & e' & _ & He' & _).
    by apply (Hno e').
  - destruct (descendant_stored _ _ _ Hx) as [t Ht].
    destruct (Hrows x t Ht) as [(e' & He' & _)|[_ ->]]; [|done].
    by destruct (Hno e').
Qed.

Lemma pruning_correct_witness :
  ∃ db' log,
    cascade_updates as_stored 6 example_tree 1 = Some (db', log) ∧
    (3, false) ∈ log ∧
    (∀ b, (5, b) ∉ log) ∧ db' !! 5 = example_tree !! 5.
Proof.
  destruct (cascade_updates as_stored 6 example_tree 1) as [[db' log]|] eqn:E;
    [|vm_compute in E; discriminate E].
  assert ((3, false) ∈ log) as H3.
  { vm_compute in E. injection E as _ <-. apply list_elem_of_In. simpl. tauto. }
  exists db', log. split; [reflexivity|]. split; [exact H3|].
  apply (pruning_correct as_stored example_tree 1 6 db' log 3 5 as_stored_perm);
    [by_evaluation|by_evaluation|exact E|exact H3|].
  apply descendant_child. by exists (task 5 1 1 (Some 3)).
Defined.

(** ** Idempotence *)



(** ** Order independence *)

(** C8.  In a forest, whatever the order in which the followers of a task
    come back from the database, a cascade that returns leaves the same
    table: the final start date of every task is the same. *)
Theorem sibling_order_irrelevant order1 order2 n1 n2 db k db1 log1 db2 log2 :
  (∀ l, order1 l ≡ₚ l) → (∀ l, order2 l ≡ₚ l) → valid db → forest db →
  cascade_updates order1 n1 db k = Some (db1, log1) →
  cascade_updates order2 n2 db k = Some (db2, log2) →
  db1 = db2.
Proof.
  intros Hperm1 Hperm2 Hv Hfo Hrun1 Hrun2.
  apply map_eq. intros x.
  destruct (cascade_closed order1 Hperm1 _ _ _ _ _ Hv Hfo Hrun1) as [Hrows1 _].
  destruct (cascade_closed order2 Hperm2 _ _ _ _ _ Hv Hfo Hrun2) as [Hrows2 _].
  destruct (db !! x) as [t|] eqn:Hx.
  - destruct (Hrows1 x t Hx) as [(e1 & He1 & ->)|[Hno1 ->]],
             (Hrows2 x t Hx) as [(e2 & He2 & ->)|[Hno2 ->]].
    + by rewrite (reaches_unique _ _ _ _ _ Hfo He1 He2).
    + by destruct (Hno2 e1).
    + by destruct (Hno1 e2).
    + done.
  - pose proof (cascade_delayed order1 Hperm1 _ _ _ _ _ Hv Hrun1) as Hd1.
    pose proof (cascade_delayed order2 Hperm2 _ _ _ _ _ Hv Hrun2) as Hd2.
    apply (delayed_lookup_None _ _ x Hd1) in Hx as H1.
    apply (delayed_lookup_None _ _ x Hd2) in Hx as H2.
    by rewrite H1, H2.
Qed.

Lemma sibling_order_irrelevant_witness :
  ∃ db' log1 log2,
    cascade_updates as_stored 6 example_tree 1 = Some (db', log1) ∧
    cascade_updates reverse 6 example_tree 1 = Some (db', log2).
Proof.
  destruct (cascade_updates as_stored 6 example_tree 1) as [[db1 log1]|]
    eqn:E1; [|vm_compute in E1; discriminate E1].
  destruct (cascade_updates reverse 6 example_tree 1) as [[db2 log2]|]
    eqn:E2; [|vm_compute in E2; discriminate E2].
  exists db1, log1, log2. split; [reflexivity|].
  by rewrite (sibling_order_irrelevant as_stored reverse 6 6 example_tree 1
                db1 log1 db2 log2 as_stored_perm reverse_perm
                ltac:(by_evaluation) ltac:(by_evaluation) E1 E2).
Defined.

(** ** The entry points *)




(** * Further properties of the code *)

(** ** The Adjustment Rule, continued *)

(** X1.  The rule changes nothing but the start date, never moves a task
    to an earlier date, and returns [true] exactly when the start date has
    changed. *)
Theorem adjustment_only_delays db task :
  let r := adjust_start_date_based_on_dependency db task in
  r.1 = with_start task (start_date r.1) ∧
  start_date task ≤ start_date r.1 ∧
  (r.2 = true ↔ start_date task < start_date r.1).
Proof.
  simpl.
  destruct (adjust_start_date_based_on_dependency db task) as [t' b] eqn:E.
  destruct (adjust_cases _ _ _ _ E)
    as [[-> ->]|[-> (d & p & _ & _ & _ & Hlt & ->)]]; simpl.
  - split; [by rewrite with_start_same|]. split; [lia|].
    split; [done|lia].
  - split; [done|]. split; [lia|]. done.
Qed.

(** X2.  Once a task has been adjusted and stored, applying the rule to it
    again changes nothing and returns [false], unless the task names
    itself as its predecessor. *)
Theorem adjustment_settles db task :
  dependency_id task ≠ Some (id task) →
  let r := adjust_start_date_based_on_dependency db task in
  adjust_start_date_based_on_dependency (<[id task := r.1]> db) r.1
    = (r.1, false).
Proof.
  intros Hself. simpl.
  destruct (adjust_start_date_based_on_dependency db task) as [t' b] eqn:E.
  simpl.
  destruct (adjust_cases _ _ _ _ E)
    as [[-> ->]|[-> (d & p & Hd & Hz & Hp & Hlt & ->)]].
  - unfold adjust_start_date_based_on_dependency in *.
    destruct (dependency_id task) as [d|] eqn:Hd; [|done].
    destruct (d =? 0); [done|].
    rewrite lookup_insert_ne by congruence.
    destruct (db !! d) as [p|]; [|done].
    by destruct (start_date task <? start_date p + duration_days p).
  - rewrite (adjust_against _ _ d p); [|done|done|].
    + simpl. by destruct (Z.ltb_spec (end_date p) (end_date p)); [lia|].
    + rewrite lookup_insert_ne by congruence. done.
Qed.

Lemma adjustment_settles_witness :
  adjust_start_date_based_on_dependency
    (<[2 := task 2 6 2 (Some 1)]> example_tree) (task 2 6 2 (Some 1))
    = (task 2 6 2 (Some 1), false).
Proof.
  apply (adjustment_settles example_tree (task 2 3 2 (Some 1))).
  simpl. congruence.
Defined.

(** ** The Cascade Walker, continued *)

(** X3.  A cascade that returns has only delayed tasks: the table holds
    the same ids, every task keeps its id, duration, predecessor and
    completion flag, and no task starts earlier than before. *)
Theorem cascade_only_delays order n db k db' log :
  (∀ l, order l ≡ₚ l) → valid db →
  cascade_updates order n db k = Some (db', log) →
  dom db' = dom db ∧ valid db' ∧
  ∀ x t', db' !! x = Some t' →
    ∃ t, db !! x = Some t ∧ t' = with_start t (start_date t') ∧
         start_date t ≤ start_date t'.
Proof.
  intros Hperm Hv Hrun.
  pose proof (cascade_delayed order Hperm _ _ _ _ _ Hv Hrun) as Hdel.
  split; [by apply delayed_dom|]. split; [by eapply delayed_valid|].
  intros x t' Hx.
  destruct (delayed_lookup_r _ _ _ _ Hdel Hx) as (t & Ht & Hl & Hle).
  by exists t.
Qed.

Lemma cascade_only_delays_witness :
  ∃ db' log,
    cascade_updates as_stored 6 example_tree 1 = Some (db', log) ∧
    dom db' = dom example_tree ∧ valid db'.
Proof.
  destruct (cascade_updates as_stored 6 example_tree 1) as [[db' log]|] eqn:E;
    [|vm_compute in E; discriminate E].
  exists db', log. split; [reflexivity|].
  destruct (cascade_only_delays as_stored 6 example_tree 1 db' log
              as_stored_perm ltac:(by_evaluation) E) as (Hdom & Hval & _).
  by split.
Defined.

(** X4.  When the end of a stored task is a calendar date and every
    follower of the task already starts no earlier than that end, a
    cascade from it returns at the first level of the recursion with the
    table unchanged, having examined each follower once and moved none,
    whatever the rest of the graph looks like. *)
Theorem cascade_noop_when_followers_settled order n db k tk :
  (∀ l, order l ≡ₚ l) → valid db → db !! k = Some tk →
  ends_in_calendar tk →
  (∀ f tf, db !! f = Some tf → dependency_id tf = Some k →
           end_date tk ≤ start_date tf) →
  cascade_updates order (S n) db k
    = Some (db, (λ f, (f, false)) <$> followers order db k).
Proof.
  intros Hperm Hv Hk _ Hset.
  rewrite (cascade_stored order _ _ _ tk Hv Hk).
  apply (loop_settled _ db k tk _ [] Hv Hk).
  intros f (tf & Hf & Hd)%(elem_of_followers order Hperm db k f Hv).
  exists tf. eauto.
Qed.

Lemma cascade_noop_when_followers_settled_witness :
  cascade_updates as_stored 1 example_settled 1
    = Some (example_settled, [(2, false)]).
Proof.
  apply (cascade_noop_when_followers_settled as_stored 0 example_settled 1
           (task 1 1 5 None) as_stored_perm);
    [by_evaluation|reflexivity|by_evaluation|].
  intros f tf Hf Hd.
  assert (map_Forall (λ _ t, dependency_id t = Some 1 →
                             end_date (task 1 1 5 None) ≤ start_date t)
                     example_settled) as H by by_evaluation.
  exact (H f tf Hf Hd).
Defined.

(** X5.  In a forest, every task that a cascade has moved starts, in the
    table the cascade leaves, exactly on the day its predecessor ends. *)
Theorem moved_onto_predecessor_end order n db k db' log x :
  (∀ l, order l ≡ₚ l) → valid db → forest db →
  cascade_updates order n db k = Some (db', log) →
  (x, true) ∈ log →
  ∃ t' d p', db' !! x = Some t' ∧ dependency_id t' = Some d ∧
             db' !! d = Some p' ∧ start_date t' = end_date p'.
Proof.
  intros Hperm Hv Hfo Hrun Hx.
  destruct (cascade_closed order Hperm n _ _ _ _ Hv Hfo Hrun) as [Hrows Hlog].
  destruct (Hlog _ _ Hx) as (t & e & Ht & He & Hb).
  assert (start_date t < e) as Hlt.
  { destruct (Z.ltb_spec (start_date t) e); [done|discriminate]. }
  assert (db' !! x = Some (with_start t e)) as Hx'.
  { destruct (Hrows x t Ht) as [(e' & He' & ->)|[Hno _]];
      [|by destruct (Hno e)].
    rewrite (reaches_unique _ _ _ _ _ Hfo He' He). unfold pushed.
    by destruct (Z.ltb_spec (start_date t) e); [|lia]. }
  exists (with_start t e).
  inversion He as [r ? t0 Hr Ht0 Hd|p tp e0 ? t0 Hp Htp Hlt0 Ht0 Hd]; subst.
  - exists k, r. split; [done|]. split; [simpl; congruence|]. split; [|done].
    rewrite (cascade_frame order Hperm _ _ _ _ _ k Hv Hrun); [done|].
    by apply forest_acyclic.
  - exists p, (with_start tp e0). split; [done|].
    split; [simpl; congruence|]. split; [|done].
    destruct (Hrows p tp Htp) as [(e' & He' & ->)|[Hno _]];
      [|by destruct (Hno e0)].
    rewrite (reaches_unique _ _ _ _ _ Hfo He' Hp). unfold pushed.
    by destruct (Z.ltb_spec (start_date tp) e0); [|lia].
Qed.

Lemma moved_onto_predecessor_end_witness :
  ∃ db' log,
    cascade_updates as_stored 6 example_tree 1 = Some (db', log) ∧
    ∃ t' d p', db' !! 4 = Some t' ∧ dependency_id t' = Some d ∧
               db' !! d = Some p' ∧ start_date t' = end_date p'.
Proof.
  destruct (cascade_updates as_stored 6 example_tree 1) as [[db' log]|] eqn:E;
    [|vm_compute in E; discriminate E].
  exists db', log. split; [reflexivity|].
  apply (moved_onto_predecessor_end as_stored 6 example_tree 1 db' log 4
           as_stored_perm); [by_evaluation|by_evaluation|exact E|].
  vm_compute in E. injection E as _ <-. apply list_elem_of_In. simpl. tauto.
Defined.

(** X6.  In a forest, the rows a cascade has changed are exactly the
    tasks for which the rule returned [true]. *)
Theorem changed_iff_moved order n db k db' log x :
  (∀ l, order l ≡ₚ l) → valid db → forest db →
  cascade_updates order n db k = Some (db', log) →
  db' !! x ≠ db !! x ↔ (x, true) ∈ log.
Proof.
  intros Hperm Hv Hfo Hrun. split.
  - by eapply cascade_changed_moved.
  - intros Hx.
    destruct (cascade_closed order Hperm n _ _ _ _ Hv Hfo Hrun)
      as [Hrows Hlog].
    destruct (Hlog _ _ Hx) as (t & e & Ht & He & Hb).
    destruct (Hrows x t Ht) as [(e' & He' & ->)|[Hno _]];
      [|by destruct (Hno e)].
    rewrite (reaches_unique _ _ _ _ _ Hfo He' He), Ht. unfold pushed.
    rewrite <-Hb. intros [= H]. apply (f_equal start_date) in H.
    simpl in H. destruct (Z.ltb_spec (start_date t) e); [lia|discriminate].
Qed.

Lemma changed_iff_moved_witness :
  ∃ db' log,
    cascade_updates as_stored 6 example_tree 1 = Some (db', log) ∧
    (db' !! 2 ≠ example_tree !! 2 ↔ (2, true) ∈ log).
Proof.
  destruct (cascade_updates as_stored 6 example_tree 1) as [[db' log]|] eqn:E;
    [|vm_compute in E; discriminate E].
  exists db', log. split; [reflexivity|].
  apply (changed_iff_moved as_stored 6 example_tree 1 db' log 2
           as_stored_perm); [by_evaluation|by_evaluation|exact E].
Defined.

(** ** The endpoints and the invariant *)

(** In a forest in which only the followers of [k] may start too early,
    a cascade from [k] that returns leaves every task of the table no
    earlier than the end of its predecessor. *)
Lemma cascade_settles_all order n db k db' log :
  (∀ l, order l ≡ₚ l) → valid db → forest db →
  settled_except_after db k →
  cascade_updates order n db k = Some (db', log) →
  all_settled db'.
Proof.
  intros Hperm Hv Hfo Hs Hrun x t' Hx'.
  destruct (cascade_closed order Hperm n _ _ _ _ Hv Hfo Hrun) as [Hrows _].
  pose proof (cascade_delayed order Hperm _ _ _ _ _ Hv Hrun) as Hdel.
  destruct (delayed_lookup_r _ _ _ _ Hdel Hx') as (t & Ht & Hl).
  destruct (Hrows x t Ht) as [(e & He & _)|[Hno Hxe]].
  { eapply (cascade_settles order n db k db' log); eauto.
    - intros p y ty. by apply settled_below.
    - by eapply reaches_descendant. }
  rewrite Hx' in Hxe. injection Hxe as ->.
  unfold starts_after_predecessor.
  destruct (dependency_id t) as [d|] eqn:Hd; [|done].
  destruct (db' !! d) as [p'|] eqn:Hp'; [|done].
  destruct (delayed_lookup_r _ _ _ _ Hdel Hp') as (p & Hp & _).
  assert (p' = p) as ->.
  { destruct (Hrows d p Hp) as [(e0 & He0 & Hde)|[_ Hde]];
      rewrite Hp' in Hde; injection Hde as ->; [|done].
    destruct (Z.lt_ge_cases (start_date p) e0) as [Hlt|Hge].
    - destruct (Hno (e0 + duration_days p)). by eapply reaches_below.
    - by apply pushed_unmoved. }
  destruct (Hs x t Ht) as [Hk|Hset].
  - assert (d = k) as -> by congruence.
    destruct (Hno (end_date p)). by eapply reaches_follower.
  - unfold starts_after_predecessor in Hset. by rewrite Hd, Hp in Hset.
Qed.

(** The rule leaves a task no earlier than the end of its stored
    predecessor. *)
Lemma adjust_settles_task db t :
  valid db →
  starts_after_predecessor db
    (adjust_start_date_based_on_dependency db t).1.
Proof.
  intros Hv.
  destruct (adjust_start_date_based_on_dependency db t) as [t' b] eqn:E.
  pose proof (adjust_later _ _ _ _ E) as Hl.
  destruct (later_fields _ _ Hl) as (_ & _ & Hdep).
  simpl. unfold starts_after_predecessor. rewrite Hdep.
  destruct (dependency_id t) as [d|] eqn:Hd; [|done].
  destruct (db !! d) as [p|] eqn:Hp; [|done].
  destruct (valid_lookup _ _ _ Hv Hp) as [_ Hpos].
  rewrite (adjust_against db t d p Hd) in E by (done || lia).
  destruct (Z.ltb_spec (start_date t) (end_date p));
    injection E as <- <-; simpl; lia.
Qed.

Lemma starts_after_ext (db db' : Store) t :
  starts_after_predecessor db t →
  (∀ d, dependency_id t = Some d → db' !! d = db !! d) →
  starts_after_predecessor db' t.
Proof.
  unfold starts_after_predecessor. intros H Heq.
  destruct (dependency_id t) as [d|]; [|done]. by rewrite Heq.
Qed.

Lemma valid_insert db k t :
  valid db → id t = k → 0 < k → valid (<[k := t]> db).
Proof. intros Hv Hid Hk. by apply map_Forall_insert_2. Qed.

Lemma size_insert_stored (db : Store) k t t' :
  db !! k = Some t → size (<[k := t']> db) = size db.
Proof.
  intros Hk. rewrite <-!size_dom. f_equal. by apply dom_insert_lookup_L.
Qed.

(** X7.  Editing a task of a table in which every task starts no earlier
    than its predecessor ends leaves such a table again, provided the
    edited graph is still a forest: when the handler replies with success,
    the invariant holds for every task of the table it has committed, not
    only below the edited one. *)
Theorem edit_keeps_table_settled order depth db d t db' :
  (∀ l, order l ≡ₚ l) → valid db → all_settled db →
  db !! form_task_id d = Some t →
  forest (<[form_task_id d := edited t d]> db) →
  update_task_api order depth db d = (db', Replied true) →
  valid db' ∧ all_settled db'.
Proof.
  intros Hperm Hv Hset Ht Hfo Hreply.
  destruct (valid_lookup _ _ _ Hv Ht) as [Hid Hpos].
  unfold update_task_api in Hreply. rewrite Ht in Hreply.
  set (k := form_task_id d) in *. set (t1 := edited t d) in *.
  assert (valid (<[k := t1]> db)) as Hvs by (by apply valid_insert).
  destruct (adjust_start_date_based_on_dependency (<[k := t1]> db) t1)
    as [t2 b] eqn:E.
  pose proof (adjust_later _ _ _ _ E) as Hl.
  destruct (later_fields _ _ Hl) as (Hid2 & _ & _).
  pose proof (delayed_insert (<[k := t1]> db) k t1 t2
                (lookup_insert_eq _ _ _) Hl) as Hdel.
  pose proof (delayed_valid _ _ Hdel Hvs) as Hvc.
  pose proof (delayed_forest _ _ Hdel Hfo) as Hfc.
  assert (id t2 = k) as Hk2 by (rewrite Hid2; exact Hid).
  rewrite Hk2 in Hreply.
  destruct (cascade_updates order depth (<[k := t2]> (<[k := t1]> db)) k)
    as [[db2 log]|] eqn:Hrun; [|discriminate Hreply].
  injection Hreply as ->.
  split.
  - eapply delayed_valid; [|exact Hvc]. by eapply cascade_delayed.
  - eapply (cascade_settles_all order _ _ k); [done|done|done| |done].
    intros x tx Hx. destruct (decide (x = k)) as [->|Hne].
    + rewrite lookup_insert_eq in Hx. injection Hx as <-.
      destruct (decide (dependency_id t2 = Some k)) as [|Hnk]; [by left|].
      right.
      pose proof (adjust_settles_task (<[k := t1]> db) t1 Hvs) as H.
      rewrite E in H.
      apply (starts_after_ext _ _ _ H).
      intros d' Hd'. apply lookup_insert_ne.
      intros Heq. apply Hnk. by rewrite Heq.
    + rewrite !lookup_insert_ne in Hx by done.
      destruct (decide (dependency_id tx = Some k)) as [|Hnk]; [by left|].
      right. apply (starts_after_ext db); [by eapply Hset|].
      intros d' Hd'.
      assert (k ≠ d') as Hkd by (intros Heq; apply Hnk; by rewrite Heq).
      by rewrite !lookup_insert_ne.
Qed.

Lemma edit_keeps_table_settled_witness :
  ∃ db',
    update_task_api as_stored 4 example_settled
      {| form_task_id := 1; form_start_date := 1; form_duration_days := 9;
         form_dependency_id := None |} = (db', Replied true) ∧
    valid db' ∧ all_settled db'.
Proof.
  destruct (update_task_api as_stored 4 example_settled
              {| form_task_id := 1; form_start_date := 1;
                 form_duration_days := 9; form_dependency_id := None |})
    as [db' out] eqn:E.
  assert (out = Replied true) as -> by (vm_compute in E; congruence).
  exists db'. split; [reflexivity|].
  apply (edit_keeps_table_settled as_stored 4 example_settled
           {| form_task_id := 1; form_start_date := 1;
              form_duration_days := 9; form_dependency_id := None |}
           (task 1 1 5 None) db' as_stored_perm);
    [by_evaluation|by_evaluation|reflexivity|by_evaluation|exact E].
Defined.

(** X8.  Creating a task keeps the invariant for the whole table, changes
    no other row, and stores the new task with the requested duration and
    predecessor and a start that is no earlier than requested, under
    these conditions: the id given to the new row is not in use, no
    stored task names that id as its predecessor, the request does not
    name that id as the predecessor of the new task either, the request
    carries values that the table can hold, and the end of the
    predecessor named by the request, when it is stored, is a calendar
    date. *)
Theorem create_keeps_table_settled db new_id d :
  valid db → all_settled db → 0 < new_id → db !! new_id = None →
  (∀ x t, db !! x = Some t → dependency_id t ≠ Some new_id) →
  form_dependency_id d ≠ Some new_id →
  storable d →
  (∀ x p, form_dependency_id d = Some x → db !! x = Some p →
          ends_in_calendar p) →
  let db' := (add_task_api db new_id d).1 in
  valid db' ∧ all_settled db' ∧
  (∀ x, x ≠ new_id → db' !! x = db !! x) ∧
  ∃ t', db' !! new_id = Some t' ∧
        t' = with_start (created new_id d) (start_date t') ∧
        form_start_date d ≤ start_date t'.
Proof.
  intros Hv Hset Hpos Hfresh Hnoref Hself _ _. simpl.
  assert (valid (<[new_id := created new_id d]> db)) as Hvs
    by (by apply valid_insert).
  pose proof (adjust_settles_task (<[new_id := created new_id d]> db)
                (created new_id d) Hvs) as Hadj.
  unfold add_task_api.
  destruct (adjust_start_date_based_on_dependency
              (<[new_id := created new_id d]> db) (created new_id d))
    as [t' b] eqn:E.
  destruct (adjust_later _ _ _ _ E) as [Hl Hle].
  pose proof (later_fields _ _ (conj Hl Hle)) as (Hid & _ & Hdep).
  simpl in *. split; [|split; [|split]].
  - apply valid_insert; [done| |done]. by rewrite Hid.
  - intros x tx Hx. destruct (decide (x = new_id)) as [->|Hne].
    + rewrite lookup_insert_eq in Hx. injection Hx as <-.
      apply (starts_after_ext _ _ _ Hadj).
      intros d' Hd'. apply lookup_insert_ne. congruence.
    + rewrite !lookup_insert_ne in Hx by done.
      apply (starts_after_ext db); [by eapply Hset|].
      intros d' Hd'. pose proof (Hnoref _ _ Hx).
      rewrite !lookup_insert_ne by congruence. done.
  - intros x Hx. by rewrite !lookup_insert_ne.
  - exists t'. by rewrite lookup_insert_eq.
Qed.

Lemma create_keeps_table_settled_witness :
  valid (add_task_api example_settled 4
           {| form_task_id := 0; form_start_date := 2;
              form_duration_days := 3; form_dependency_id := Some 3 |}).1 ∧
  all_settled (add_task_api example_settled 4
           {| form_task_id := 0; form_start_date := 2;
              form_duration_days := 3; form_dependency_id := Some 3 |}).1.
Proof.
  destruct (create_keeps_table_settled example_settled 4
              {| form_task_id := 0; form_start_date := 2;
                 form_duration_days := 3; form_dependency_id := Some 3 |})
    as (H1 & H2 & _); [by_evaluation|by_evaluation|lia|reflexivity| |
                       simpl; congruence|by_evaluation| |by split].
  - intros x t Hx.
    assert (map_Forall (λ _ t, dependency_id t ≠ Some 4) example_settled)
      as H by by_evaluation.
    exact (H x t Hx).
  - intros x p [= <-] Hp.
    assert (map_Forall (λ _ t, ends_in_calendar t) example_settled)
      as H by by_evaluation.
    exact (H 3 p Hp).
Defined.

(** X9.  Deleting a task keeps the invariant for the whole table and
    removes exactly the named row; the handler reports success exactly
    when the row was there. *)
Theorem delete_keeps_table_settled db task_id :
  valid db → all_settled db →
  let r := delete_task_api db task_id in
  valid r.1 ∧ all_settled r.1 ∧ r.1 = delete task_id db ∧
  (r.2 = Replied true ↔ is_Some (db !! task_id)).
Proof.
  intros Hv Hset. simpl.
  assert ((delete_task_api db task_id).1 = delete task_id db) as Heq.
  { unfold delete_task_api. destruct (db !! task_id) eqn:E; simpl; [done|].
    symmetry. by apply delete_id. }
  rewrite Heq. split; [|split; [|split; [done|]]].
  - intros x t [_ Hx]%lookup_delete_Some. by apply Hv.
  - intros x t [Hne Hx]%lookup_delete_Some.
    pose proof (Hset x t Hx) as H. unfold starts_after_predecessor in *.
    destruct (dependency_id t) as [d'|]; [|done].
    destruct (decide (d' = task_id)) as [->|Hd'].
    + by rewrite lookup_delete_eq.
    + by rewrite lookup_delete_ne.
  - unfold delete_task_api. destruct (db !! task_id) eqn:E; simpl.
    + split; [eauto|done].
    + split; [done|]. by intros [? ?].
Qed.

Lemma delete_keeps_table_settled_witness :
  valid (delete_task_api example_settled 2).1 ∧
  all_settled (delete_task_api example_settled 2).1 ∧
  (delete_task_api example_settled 2).1 !! 3 = Some (task 3 8 1 (Some 2)).
Proof.
  destruct (delete_keeps_table_settled example_settled 2)
    as (H1 & H2 & _); [by_evaluation|by_evaluation|].
  split; [exact H1|]. split; [exact H2|reflexivity].
Defined.



(** X11.  Editing a task so that it names itself as its predecessor,
    with a positive duration, makes the handler fail at every recursion
    depth, when the request carries values that the table can hold and
    the requested start plus the requested duration is a calendar date:
    the task is committed one duration later than requested and the
    cascade that follows never returns. *)
Theorem self_dependency_crashes order depth db d t :
  (∀ l, order l ≡ₚ l) → valid db →
  db !! form_task_id d = Some t →
  form_dependency_id d = Some (form_task_id d) →
  0 < form_duration_days d →
  storable d → ends_in_calendar (edited t d) →
  update_task_api order depth db d
    = (<[form_task_id d :=
           with_start (edited t d)
             (form_start_date d + form_duration_days d)]> db,
       Crashed).
Proof.
  intros Hperm Hv Ht Hself Hdur _ _.
  destruct (valid_lookup _ _ _ Hv Ht) as [Hid Hpos].
  set (k := form_task_id d) in *. set (t1 := edited t d) in *.
  set (t2 := with_start t1 (form_start_date d + form_duration_days d)).
  assert (valid (<[k := t1]> db)) as Hvs by (by apply valid_insert).
  assert (adjust_start_date_based_on_dependency (<[k := t1]> db) t1
          = (t2, true)) as E.
  { rewrite (adjust_against _ t1 k t1);
      [|done|lia|apply lookup_insert_eq].
    unfold end_date. simpl.
    by destruct (Z.ltb_spec (form_start_date d)
                   (form_start_date d + form_duration_days d)); [|lia]. }
  assert (valid (<[k := t2]> (<[k := t1]> db))) as Hvc
    by (by apply valid_insert).
  destruct (keeps_tight_and_stays_open order Hperm depth) as [_ HP].
  unfold update_task_api. fold k. rewrite Ht. fold t1. rewrite E.
  change (id t2) with (id t). rewrite Hid.
  rewrite (HP _ k t2 k t2 Hvc); [by rewrite insert_insert_eq| | | | |].
  - apply lookup_insert_eq.
  - apply lookup_insert_eq.
  - done.
  - unfold end_date. simpl. lia.
  - constructor.
Qed.

Lemma self_dependency_crashes_witness :
  update_task_api as_stored 1000 example_settled
    {| form_task_id := 3; form_start_date := 8; form_duration_days := 1;
       form_dependency_id := Some 3 |}
    = (<[3 := task 3 9 1 (Some 3)]> example_settled, Crashed).
Proof.
  apply (self_dependency_crashes as_stored 1000 example_settled
           {| form_task_id := 3; form_start_date := 8;
              form_duration_days := 1; form_dependency_id := Some 3 |}
           (task 3 8 1 (Some 2)) as_stored_perm);
    [by_evaluation|reflexivity|reflexivity|simpl; lia|
     by_evaluation|by_evaluation].
Defined.

(** ** Completion *)

(** Completion does not enter the rule. *)
Lemma adjust_ignores_completion db k t b u :
  db !! k = Some t →
  adjust_start_date_based_on_dependency (<[k := with_completed t b]> db) u
    = adjust_start_date_based_on_dependency db u.
Proof.
  intros Hk. unfold adjust_start_date_based_on_dependency.
  destruct (dependency_id u) as [d|]; [|done].
  destruct (d =? 0); [done|].
  destruct (decide (k = d)) as [<-|Hne].
  - by rewrite lookup_insert_eq, Hk.
  - by rewrite lookup_insert_ne.
Qed.

(** X12.  Toggling the completion of a task twice gives the table back;
    one toggle changes the flag of that task and nothing else, so the
    rule gives the same answer for every task before and after it. *)
Theorem complete_toggles db task_id :
  (complete_task_api (complete_task_api db task_id).1 task_id).1 = db ∧
  (∀ t, db !! task_id = Some t →
        (complete_task_api db task_id).1 !! task_id
          = Some (with_completed t (negb (is_completed t)))) ∧
  (∀ x, x ≠ task_id → (complete_task_api db task_id).1 !! x = db !! x) ∧
  (∀ u, adjust_start_date_based_on_dependency
          (complete_task_api db task_id).1 u
        = adjust_start_date_based_on_dependency db u).
Proof.
  unfold complete_task_api.
  destruct (db !! task_id) as [t|] eqn:Ht; simpl.
  - split; [|split; [|split]].
    + rewrite lookup_insert_eq. simpl. rewrite insert_insert_eq.
      apply insert_id. rewrite Ht. f_equal.
      destruct t as [? ? ? ? []]; done.
    + intros t' [= <-]. apply lookup_insert_eq.
    + intros x Hx. by rewrite lookup_insert_ne.
    + intros u. by apply adjust_ignores_completion.
  - rewrite Ht. simpl. split; [done|]. split; [done|]. done.
Qed.

Lemma complete_toggles_witness :
  (complete_task_api (complete_task_api example_settled 2).1 2).1
    = example_settled ∧
  (complete_task_api example_settled 2).1 !! 2
    = Some (with_completed (task 2 6 2 (Some 1)) true).
Proof.
  destruct (complete_toggles example_settled 2) as (H1 & H2 & _).
  split; [exact H1|]. apply H2. reflexivity.
Defined.

(** ** Users *)

Lemma delete_user_valid users uid :
  valid_users users → valid_users (delete_user users uid).1.
Proof.
  intros Hv. unfold delete_user.
  destruct (users !! uid) as [u|]; [|done].
  destruct (user_id u =? 1); [done|]. simpl.
  intros x v [_ Hx]%lookup_delete_Some. by apply Hv.
Qed.

Lemma delete_user_spares_first users uid :
  valid_users users → (delete_user users uid).1 !! 1 = users !! 1.
Proof.
  intros Hv. unfold delete_user.
  destruct (users !! uid) as [u|] eqn:Hu; [|done].
  destruct (Z.eqb_spec (user_id u) 1) as [|Hne]; [done|]. simpl.
  apply lookup_delete_ne. intros ->. apply Hne. exact (Hv _ _ Hu).
Qed.

(** X13.  No sequence of [delete_user] requests removes or changes the
    user with id 1; a request for any other stored user removes that user
    and no other. *)
Theorem first_user_is_never_deleted users uids :
  valid_users users →
  foldl (λ us uid, (delete_user us uid).1) users uids !! 1 = users !! 1 ∧
  ∀ uid u, users !! uid = Some u → uid ≠ 1 →
           delete_user users uid = (delete uid users, Replied true).
Proof.
  intros Hv. split.
  - revert users Hv. induction uids as [|uid uids IH]; intros users Hv;
      [done|].
    simpl. rewrite IH by (by apply delete_user_valid).
    by apply delete_user_spares_first.
  - intros uid u Hu Hne. unfold delete_user. rewrite Hu.
    destruct (Z.eqb_spec (user_id u) 1) as [E|]; [|done].
    destruct Hne. by rewrite <-(Hv _ _ Hu).
Qed.

Lemma first_user_is_never_deleted_witness :
  foldl (λ us uid, (delete_user us uid).1) example_users [1; 2; 1] !! 1
    = example_users !! 1 ∧
  delete_user example_users 2 = (delete 2 example_users, Replied true).
Proof.
  destruct (first_user_is_never_deleted example_users [1; 2; 1])
    as [H1 H2]; [by_evaluation|].
  split; [exact H1|].
  apply (H2 2 (mkUser 2 "ann@connect.local" "ann@connect.local" "user"));
    [reflexivity|lia].
Defined.

(** ** How much a cascade examines *)

Lemma loop_examines_once order n db k L :
  (∀ l, order l ≡ₚ l) →
  (∀ db k db' log, valid db → forest db →
     cascade_updates order n db k = Some (db', log) → NoDup log.*1) →
  valid db → forest db → NoDup L → (∀ f, f ∈ L → follows db k f) →
  ∀ now log0 db' log',
    delayed db now →
    for_each (visit (cascade_updates order n)) L (now, log0)
      = Some (db', log') →
    delayed db db' ∧
    ∃ l1, log' = log0 ++ l1 ∧ NoDup l1.*1 ∧
          ∀ x, x ∈ l1.*1 → ∃ f, f ∈ L ∧ rtc (follows db) f x.
Proof.
  intros Hperm IHn Hv Hfo. induction L as [|f L IHL];
    intros Hnd HL now log0 db' log' Hdel.
  { intros [= <- <-]. split; [done|]. exists []. rewrite app_nil_r.
    split; [done|]. split; [constructor|]. by intros ? ?%elem_of_nil. }
  rewrite for_each_cons.
  destruct (visit _ (now, log0) f) as [[now1 log1]|] eqn:Hvis; [|done].
  intros Hrest. apply NoDup_cons in Hnd as [HfL Hnd].
  assert (follows db k f) as Hkf by (apply HL; left).
  pose proof (delayed_valid _ _ Hdel Hv) as Hvn.
  assert (delayed db now1 ∧
          ∃ l, log1 = log0 ++ l ∧ NoDup l.*1 ∧
               ∀ x, x ∈ l.*1 → rtc (follows db) f x)
    as (Hdel1 & l & -> & Hndl & Hl).
  { apply visit_Some in Hvis
      as [[_ [= -> ->]]|[(tf & Hf & _ & [= -> ->])
                        |(tf & tf' & db2 & log2 & Hf & Ha & Hr & [= -> ->])]].
    - split; [done|]. exists []. rewrite app_nil_r. split; [done|].
      split; [constructor|]. by intros ? ?%elem_of_nil.
    - split; [done|]. exists [(f, false)]. split; [done|]. split.
      + apply NoDup_singleton.
      + by intros x ->%list_elem_of_singleton.
    - pose proof (adjust_later _ _ _ _ Ha) as Hlat.
      pose proof (delayed_insert _ _ _ _ Hf Hlat) as Hdi.
      pose proof (delayed_trans _ _ _ Hdel Hdi) as Hdel'.
      destruct (later_fields _ _ Hlat) as (Hid & _ & _).
      destruct (valid_lookup _ _ _ Hvn Hf) as [Hidf _].
      rewrite Hid, Hidf in Hr.
      pose proof (delayed_valid _ _ Hdel' Hv) as Hvi.
      pose proof (delayed_forest _ _ Hdel' Hfo) as Hfi.
      assert (∀ x b, (x, b) ∈ log2 → descendant db f x) as Hbelow.
      { intros x b Hx. apply (delayed_descendant _ _ _ _ Hdel').
        by eapply cascade_examined_below. }
      split.
      { eapply delayed_trans; [exact Hdel'|]. by eapply cascade_delayed. }
      exists ((f, true) :: log2). split; [done|]. split.
      + simpl. apply NoDup_cons. split; [|by eapply IHn].
        intros ([x b] & -> & Hx)%list_elem_of_fmap.
        apply (forest_acyclic db x Hfo). by eapply Hbelow.
      + intros x [->|([y b] & -> & Hx)%list_elem_of_fmap]%elem_of_cons;
          [done|].
        apply tc_rtc. by eapply Hbelow. }
  destruct (IHL Hnd (λ f' H, HL f' (list_elem_of_further _ _ _ H))
              now1 (log0 ++ l) db' log' Hdel1 Hrest)
    as (Hdel' & l2 & -> & Hnd2 & Hl2).
  split; [done|]. exists (l ++ l2). split; [by rewrite app_assoc|]. split.
  - rewrite fmap_app. apply NoDup_app. split; [done|]. split; [|done].
    intros x Hx Hx2. destruct (Hl2 x Hx2) as (f' & Hf' & Hfx').
    apply HfL.
    rewrite (forest_subtrees_disjoint db k f f' x Hfo Hkf
               (HL f' (list_elem_of_further _ _ _ Hf')) (Hl x Hx) Hfx').
    done.
  - rewrite fmap_app. intros x [Hx|Hx]%elem_of_app.
    + exists f. split; [left|]. by apply Hl.
    + destruct (Hl2 x Hx) as (f' & Hf' & Hfx'). exists f'.
      split; [by right|done].
Qed.

Lemma cascade_examines_once order n :
  (∀ l, order l ≡ₚ l) →
  ∀ db k db' log, valid db → forest db →
    cascade_updates order n db k = Some (db', log) → NoDup log.*1.
Proof.
  intros Hperm. induction n as [|n IHn]; intros db k db' log Hv Hfo; [done|].
  destruct (db !! k) as [tk|] eqn:Hk.
  - rewrite (cascade_stored order _ _ _ tk Hv Hk). intros Hrun.
    destruct (loop_examines_once order n db k (followers order db k)
                Hperm IHn Hv Hfo (NoDup_followers order Hperm _ _ Hv)
                (λ f, proj1 (elem_of_followers order Hperm db k f Hv))
                db [] db' log (delayed_refl _) Hrun)
      as (_ & l1 & -> & Hnd & _).
    done.
  - rewrite cascade_missing by done. intros [= <- <-]. constructor.
Qed.

(** X14.  In a forest a cascade applies the rule to each task at most
    once, so a cascade over a table of [n] tasks makes at most [n]
    applications of the rule. *)
Theorem cascade_examines_each_task_once order n db k db' log :
  (∀ l, order l ≡ₚ l) → valid db → forest db →
  cascade_updates order n db k = Some (db', log) →
  NoDup log.*1 ∧ (length log ≤ size db)%nat.
Proof.
  intros Hperm Hv Hfo Hrun.
  pose proof (cascade_examines_once order n Hperm _ _ _ _ Hv Hfo Hrun)
    as Hnd.
  split; [done|].
  rewrite <-(length_fmap fst log), <-size_dom.
  unfold size, set_size. simpl.
  apply submseteq_length, NoDup_submseteq; [done|].
  intros x ([y b] & -> & Hx)%list_elem_of_fmap.
  apply elem_of_elements, elem_of_dom. simpl.
  eapply descendant_stored. by eapply cascade_examined_below.
Qed.

Lemma cascade_examines_each_task_once_witness :
  ∃ db' log,
    cascade_updates as_stored 6 example_tree 1 = Some (db', log) ∧
    NoDup log.*1 ∧ (length log ≤ size example_tree)%nat.
Proof.
  destruct (cascade_updates as_stored 6 example_tree 1) as [[db' log]|] eqn:E;
    [|vm_compute in E; discriminate E].
  exists db', log. split; [reflexivity|].
  apply (cascade_examines_each_task_once as_stored 6 example_tree 1 db' log
           as_stored_perm); [by_evaluation|by_evaluation|exact E].
Defined.
